(** * pgmock: the region-matching and rewrite engine of [pgmock/render.py]

    A shallow embedding of [pgmock.render] (with the parts of
    [pgmock.exceptions] and [pgmock.config] it consults), followed by the
    properties of the masking pass, the paren balancer, the matchers, the
    value serializer and the rewrite operation.

    Conventions of the embedding
    - SQL text is a [list ascii] (type [text]); the model covers ASCII text.
    - Python integers are [Z]; Python's slice and index rules (negative
      indices counted from the end, clamping) are written out in [Py].
    - A raised exception is the [Error] case of [result]; [throw] keeps the
      exception class, the message and the SQL argument it was given.
    - The process-wide configuration read through [pgmock.config] is the
      explicit argument [cfg].
    - Python's [re] module is modelled by the small backtracking matcher of
      module [Re]; the patterns of the source are transcribed as terms. *)

From Stdlib Require Import Ascii String.
From Stdlib Require Import List ZArith Lia Bool Arith.
From Stdlib Require Import Numbers.DecimalString.
From Equations Require Import Equations.
Import ListNotations.

Definition text := list ascii.

Notation "$ s" := (list_ascii_of_string s%string) (at level 1, format "$ s").

(** ** Python primitives used by the source *)
Module Py.

Open Scope Z_scope.

Definition len {A} (s : list A) : Z := Z.of_nat (length s).

(** Normalisation of a slice endpoint for a positive step: a negative
    index counts from the end, then the index is clamped to [0, len]. *)
Definition norm {A} (s : list A) (i : Z) : Z :=
  if i <? 0 then Z.max (i + len s) 0 else Z.min i (len s).

(** [s[a:b]] *)
Definition slice {A} (s : list A) (a b : Z) : list A :=
  let a' := norm s a in
  let b' := norm s b in
  firstn (Z.to_nat (b' - a')) (skipn (Z.to_nat a') s).

(** [s[:b]] *)
Definition slice_to {A} (s : list A) (b : Z) : list A :=
  firstn (Z.to_nat (norm s b)) s.

(** [s[a:]] *)
Definition slice_from {A} (s : list A) (a : Z) : list A :=
  skipn (Z.to_nat (norm s a)) s.

(** [s[a::-1]]: the elements at [a, a-1, ..., 0]; a negative [a] counts
    from the end, and an index past the end starts at the last element. *)
Definition slice_from_rev {A} (s : list A) (a : Z) : list A :=
  let a' := if a <? 0 then a + len s else a in
  if a' <? 0 then []
  else rev (firstn (Z.to_nat (Z.min a' (len s - 1) + 1)) s).

(** [s[i]] for an integer [i]; [None] stands for [IndexError]. *)
Definition index {A} (s : list A) (i : Z) : option A :=
  let i' := if i <? 0 then i + len s else i in
  if (0 <=? i') && (i' <? len s) then nth_error s (Z.to_nat i') else None.

(** [s[a:b]] where either endpoint may be omitted ([None]). *)
Definition slice_opt {A} (s : list A) (a b : option Z) : list A :=
  match a, b with
  | None, None => s
  | Some a, None => slice_from s a
  | None, Some b => slice_to s b
  | Some a, Some b => slice s a b
  end.

Definition is_prefix (p s : text) : bool :=
  (length p <=? length s)%nat &&
  if list_eq_dec ascii_dec p (firstn (length p) s) then true else false.

(** [s.split(sep)] for a non-empty separator: leftmost, non-overlapping. *)
Fixpoint split_aux (sep : text) (fuel : nat) (cur s : text) : list text :=
  match fuel with
  | O => [rev cur ++ s]
  | S fuel' =>
      match s with
      | [] => [rev cur]
      | c :: s' =>
          if is_prefix sep s
          then rev cur :: split_aux sep fuel' [] (skipn (length sep) s)
          else split_aux sep fuel' (c :: cur) s'
      end
  end.

Definition split (sep s : text) : list text :=
  split_aux sep (S (length s)) [] s.

(** [s.split(c)] for a one-character separator, by structural recursion. *)
Fixpoint split_char (c : ascii) (s : text) : list text :=
  match s with
  | [] => [[]]
  | x :: s' =>
      if Ascii.eqb x c then [] :: split_char c s'
      else match split_char c s' with
           | [] => [[x]]
           | p :: ps => (x :: p) :: ps
           end
  end.

(** [sep.join(parts)] *)
Fixpoint join (sep : text) (parts : list text) : text :=
  match parts with
  | [] => []
  | [p] => p
  | p :: ps => p ++ sep ++ join sep ps
  end.

(** [sub in s] for strings. *)
Fixpoint contains (sub s : text) : bool :=
  is_prefix sub s ||
  match s with
  | [] => false
  | _ :: s' => contains sub s'
  end.

(** [s.replace(old, new)] for a one-character [old]. *)
Definition replace_char (old : ascii) (new : text) (s : text) : text :=
  flat_map (fun c => if Ascii.eqb c old then new else [c]) s.

(** The position of the first [c] in [s], if any. *)
Fixpoint find_char (c : ascii) (s : text) : option nat :=
  match s with
  | [] => None
  | x :: s' =>
      if Ascii.eqb x c then Some O
      else option_map S (find_char c s')
  end.

(** [s.find(c, start)]: [-1] when there is no occurrence at or after
    [start]. *)
Definition find (s : text) (c : ascii) (start : Z) : Z :=
  let a := norm s start in
  match find_char c (skipn (Z.to_nat a) s) with
  | Some k => a + Z.of_nat k
  | None => -1
  end.

(** [str.isspace] on one ASCII character: TAB..CR, FS..US and space. *)
Definition isspace (c : ascii) : bool :=
  let n := nat_of_ascii c in
  ((9 <=? n) && (n <=? 13) || (28 <=? n) && (n <=? 32))%nat.

Fixpoint lstrip (s : text) : text :=
  match s with
  | c :: s' => if isspace c then lstrip s' else s
  | [] => []
  end.

(** [s.strip()] *)
Definition strip (s : text) : text := rev (lstrip (rev (lstrip s))).

(** [' ' * n] *)
Definition spaces (n : nat) : text := repeat " "%char n.

(** [s.rjust(width)] *)
Definition rjust (s : text) (width : nat) : text :=
  spaces (width - length s) ++ s.

(** [str(n)] for an integer. *)
Definition str_int (n : Z) : text :=
  list_ascii_of_string (NilZero.string_of_int (Z.to_int n)).

(** [sum(len(p) for p in parts)] *)
Definition sum_len (parts : list text) : Z :=
  fold_right (fun p acc => len p + acc) 0 parts.

End Py.

(** ** [pgmock.exceptions] *)

(** The exception classes, each a kind of its own: the class hierarchy
    (where [NestedMatchError] derives from [MultipleMatchError]) is not
    modelled, an exception is identified by the class it was raised with. *)
Inductive exception : Type :=
| InvalidSQLError
| StatementParseError
| NoMatchError
| MultipleMatchError
| NestedMatchError
| SelectorChainingError
| UnpatchableError
| ColumnsNeededForPatchError
| ColumnMismatchInPatchError
| ValueSerializationError
| SideEffectExhaustedError
(* built-in exceptions the code can raise *)
| AssertionError
| KeyError
| IndexError
| ValueError
| AttributeError.

(** The [sql] argument of [throw]: absent, one string, or a list of them. *)
Inductive throw_sql : Type :=
| NoSQL
| OneSQL (sql : text)
| ManySQL (sqls : list text).

(** What a raised exception carries: its class, and for the exceptions
    raised through [pgmock.exceptions.throw] the message and the SQL. *)
Record raised : Type := Raised {
  exc : exception;
  exc_msg : text;
  exc_sql : throw_sql
}.

Inductive result (A : Type) : Type :=
| OK (a : A)
| Error (e : raised).
Arguments OK {A} a.
Arguments Error {A} e.

Definition bind {A B} (r : result A) (f : A -> result B) : result B :=
  match r with
  | OK a => f a
  | Error e => Error e
  end.

Notation "x <- r ;; k" := (bind r (fun x => k))
  (at level 61, r at next level, right associativity).

Definition DOCS_URL : text :=
  $"https://pgmock.readthedocs.io/en/latest/exceptions.html".

(** [throw(exception, msg, sql)]: the final message is [msg], then the
    stripped SQL (or the stripped matches joined by a rule), then the
    pointer to the documentation. *)
Definition throw_message (msg : text) (sql : throw_sql) : text :=
  let err_msg :=
    match sql with
    | NoSQL | OneSQL [] | ManySQL [] => msg
    | OneSQL s =>
        msg ++ $" The following SQL was used: " ++ [ascii_of_nat 10; ascii_of_nat 10]
            ++ Py.strip s ++ [ascii_of_nat 10; ascii_of_nat 10]
    | ManySQL l =>
        msg ++ $" The following multiple matches of SQL were used: "
            ++ [ascii_of_nat 10; ascii_of_nat 10]
            ++ Py.join ([ascii_of_nat 10] ++ $"---" ++ [ascii_of_nat 10]) (map Py.strip l)
            ++ [ascii_of_nat 10; ascii_of_nat 10]
    end in
  err_msg ++ $"View the docs for this exception at " ++ DOCS_URL
          ++ $" for more information.".

Definition throw {A} (e : exception) (msg : text) (sql : throw_sql) : result A :=
  Error (Raised e (throw_message msg sql) sql).

(** An exception raised directly ([assert], a failed lookup). *)
Definition raise {A} (e : exception) : result A :=
  Error (Raised e [] NoSQL).

Definition is_exc {A} (e : exception) (r : result A) : Prop :=
  exists m s, r = Error (Raised e m s).

(** ** [pgmock.config] *)

Record config : Type := Config {
  safe_mode : bool;
  replace_new_patch_aliases : bool
}.

(** The values the configuration starts with. *)
Definition default_config : config := Config false true.

(** ** The paren balancer and the masking pass *)

Definition LPAREN : ascii := "("%char.
Definition RPAREN : ascii := ")"%char.
Definition NL : ascii := ascii_of_nat 10.

(** The two directions [_find_enclosing_paren] is called with. *)
Inductive direction : Type :=
| Forward   (* direction == 1 *)
| Backward. (* direction == -1 *)

Definition dir_int (d : direction) : Z :=
  match d with Forward => 1 | Backward => (-1) end.

(** [sql[start::direction]] *)
Definition stride (sql : text) (start : Z) (d : direction) : text :=
  match d with
  | Forward => Py.slice_from sql start
  | Backward => Py.slice_from_rev sql start
  end.

(** The [for] loop of [_find_enclosing_paren]: [Some i] when the loop is
    left through [break] with counter [i], [None] when the characters are
    exhausted (the [else] branch of the loop). *)
Fixpoint paren_loop (paren_start paren_end : ascii) (chars : text)
         (parens_unmatched : Z) (i : Z) : option Z :=
  match chars with
  | [] => None
  | char :: rest =>
      if Ascii.eqb char paren_start
      then paren_loop paren_start paren_end rest (parens_unmatched + 1) (i + 1)
      else if Ascii.eqb char paren_end
      then if negb (parens_unmatched =? 0)%Z
           then paren_loop paren_start paren_end rest (parens_unmatched - 1) (i + 1)
           else Some i
      else paren_loop paren_start paren_end rest parens_unmatched (i + 1)
  end.

Definition DQ : text := [ascii_of_nat 34].

Definition find_enclosing_err_msg (paren_idx : Z) (d : direction) : text :=
  $"Could not find enclosing parentheses on SQL starting at position " ++ DQ
   ++ Py.str_int paren_idx ++ DQ ++ $" and going direction " ++ DQ
   ++ Py.str_int (dir_int d) ++ DQ ++ $". This happens when"
   ++ $" left and right parens in the SQL do not match"
   ++ $" (e.g. " ++ DQ ++ $"WITH name AS (" ++ DQ
   ++ $" has no matching right paren)".

Definition _find_enclosing_paren (sql : text) (paren_idx : Z) (d : direction)
  : result Z :=
  let paren_start := match d with Forward => LPAREN | Backward => RPAREN end in
  let paren_end := match d with Forward => RPAREN | Backward => LPAREN end in
  match paren_loop paren_start paren_end
                   (stride sql (paren_idx + dir_int d) d) 0 0 with
  | Some i => OK (paren_idx + (i + 1) * dir_int d)%Z
  | None => throw InvalidSQLError (find_enclosing_err_msg paren_idx d) (OneSQL sql)
  end.

(** The keys of [_SPLITTER_REGEXES] and the tokens each regex splits on,
    in the order of its alternatives. [None] from the lookup is
    [KeyError]. *)
Definition _SPLITTER_REGEXES (key : option text) : option (list text) :=
  match key with
  | None => Some [$"--"; $"'"; DQ; $"/*"]
  | Some k =>
      if list_eq_dec ascii_dec k $"--" then Some [[NL]]
      else if list_eq_dec ascii_dec k $"'" then Some [$"'"]
      else if list_eq_dec ascii_dec k $"/*" then Some [$"*/"]
      else None
  end.

(** The first token of [toks] that [s] starts with. *)
Fixpoint match_token (toks : list text) (s : text) : option text :=
  match toks with
  | [] => None
  | t :: toks' => if Py.is_prefix t s then Some t else match_token toks' s
  end.

(** [split_regex.split(sql, 1)] for a regex that is one capturing group of
    literal alternatives: [Some (prefix, token, rest)] at the leftmost
    match, [None] when nothing matches (the list then has one part). *)
Fixpoint re_split1 (toks : list text) (s : text) : option (text * text * text) :=
  match match_token toks s with
  | Some t => Some ([], t, skipn (length t) s)
  | None =>
      match s with
      | [] => None
      | c :: s' =>
          match re_split1 toks s' with
          | Some (p, t, r) => Some (c :: p, t, r)
          | None => None
          end
      end
  end.

Lemma is_prefix_app (p s : text) :
  Py.is_prefix p s = true -> s = p ++ skipn (length p) s.
Proof.
  unfold Py.is_prefix. intros H.
  apply andb_true_iff in H. destruct H as [_ H].
  destruct (list_eq_dec ascii_dec p (firstn (length p) s)) as [E|]; [|discriminate].
  rewrite E at 1. symmetry. apply firstn_skipn.
Qed.

Lemma match_token_sound (toks : list text) (s t : text) :
  match_token toks s = Some t -> In t toks /\ s = t ++ skipn (length t) s.
Proof.
  induction toks as [|t' toks IH]; simpl; [discriminate|].
  destruct (Py.is_prefix t' s) eqn:E.
  - intros [= <-]. split; [now left | now apply is_prefix_app].
  - intros H. destruct (IH H). split; [now right | assumption].
Qed.

Lemma re_split1_sound (toks : list text) (s p t r : text) :
  re_split1 toks s = Some (p, t, r) -> In t toks /\ s = p ++ t ++ r.
Proof.
  revert p t r. induction s as [|c s IH]; intros p t r; simpl.
  - destruct (match_token toks []) eqn:E; [|discriminate].
    intros [= <- <- <-]. apply match_token_sound in E. exact E.
  - destruct (match_token toks (c :: s)) eqn:E.
    + intros [= <- <- <-]. apply match_token_sound in E. exact E.
    + destruct (re_split1 toks s) as [[[p' t'] r']|] eqn:E'; [|discriminate].
      intros [= <- <- <-]. destruct (IH _ _ _ eq_refl) as [Hin ->].
      split; [assumption | reflexivity].
Qed.

Lemma _SPLITTER_REGEXES_nonempty (key : option text) (toks : list text) (t : text) :
  _SPLITTER_REGEXES key = Some toks -> In t toks -> (0 < length t)%nat.
Proof.
  unfold _SPLITTER_REGEXES. destruct key as [k|].
  - repeat match goal with
           | |- context [list_eq_dec ?d ?a ?b] => destruct (list_eq_dec d a b)
           end; try discriminate;
      intros [= <-]; simpl; intros [<-|[]]; simpl; lia.
  - intros [= <-]; simpl. intros [<-|[<-|[<-|[<-|[]]]]]; simpl; lia.
Qed.

Definition inspect {A} (a : A) : {b : A | a = b} := exist _ a eq_refl.

(** [_strip_comments_and_string_literals]: the [while sql:] loop, with the
    loop variables [sql], [previous_split_token] and [stripped_sql]. *)
Equations? strip_loop (sql : text) (previous_split_token : option text)
          (stripped_sql : text) : result text by wf (length sql) lt :=
strip_loop [] _ stripped_sql := OK stripped_sql;
strip_loop (c :: s) previous_split_token stripped_sql
  with inspect (_SPLITTER_REGEXES previous_split_token) := {
  | exist _ None _ := raise KeyError;
  | exist _ (Some toks) Htoks with inspect (re_split1 toks (c :: s)) := {
    | exist _ None _ :=
        match previous_split_token with
        | Some _ => OK (stripped_sql ++ Py.spaces (length (c :: s)))
        | None => OK (stripped_sql ++ (c :: s))
        end;
    | exist _ (Some (prefix, this_split_token, rest)) Hsplit :=
        match previous_split_token with
        | Some _ =>
            strip_loop rest None
                       (stripped_sql ++ Py.spaces (length prefix) ++ this_split_token)
        | None =>
            strip_loop rest (Some this_split_token)
                       (stripped_sql ++ prefix ++ this_split_token)
        end } }.
Proof.
  all: apply (re_split1_sound toks (c :: s)) in Hsplit; destruct Hsplit as [Hin Heq];
    pose proof (_SPLITTER_REGEXES_nonempty _ _ _ Htoks Hin) as Hlen;
    apply (f_equal (@length ascii)) in Heq;
    rewrite !length_app in Heq; simpl in Heq; lia.
Qed.

Definition _strip_comments_and_string_literals (sql : text) : result text :=
  strip_loop sql None [].

(** ** Serialization of a literal dataset *)

(** A scalar of a patch row, by its class. Values whose rendering is done
    by a library ([str] of a float, [json.dumps], [isoformat], [str] of a
    UUID) carry that rendering; [VOther] is a value of any other class,
    with its [str] and the [str] of its type. *)
Inductive scalar : Type :=
| VNone
| VBool (b : bool)
| VStr (s : text)
| VInt (n : Z)
| VFloat (str_v : text)
| VDict (json_dumps : text)
| VDatetime (isoformat : text) (tzinfo : bool)
| VDate (isoformat : text)
| VTime (isoformat : text) (tzinfo : bool)
| VUUID (str_v : text)
| VOther (str_v : text) (type_v : text).

Definition quoted (s : text) : text := $"'" ++ s ++ $"'".

(** [PG_VALUE_SERIALIZERS]: [None] when the class of the value is not a
    key. *)
Definition PG_VALUE_SERIALIZERS (val : scalar) : option text :=
  match val with
  | VBool v => Some (if v then $"TRUE" else $"FALSE")
  | VStr v => Some (quoted (Py.replace_char "'"%char $"''" v))
  | VInt v => Some (Py.str_int v)
  | VFloat v => Some v
  | VDict v => Some (quoted (Py.replace_char "'"%char $"''" v))
  | VDatetime v _ => Some (quoted v)
  | VDate v => Some (quoted v)
  | VTime v _ => Some (quoted v)
  | VUUID v => Some (quoted v)
  | VNone | VOther _ _ => None
  end.

(** [PG_TYPES]: the cast inferred from the class of the value. *)
Definition PG_TYPES (val : scalar) : option text :=
  match val with
  | VDict _ => Some $"JSON"
  | VDatetime _ tz => Some ($"TIMESTAMP" ++ if tz then $"TZ" else [])
  | VDate _ => Some $"DATE"
  | VTime _ tz => Some ($"TIME" ++ if tz then $"TZ" else [])
  | VUUID _ => Some $"UUID"
  | _ => None
  end.

(** Truth value of an optional string: [None] and [''] are false. *)
Definition truthy (s : option text) : bool :=
  match s with
  | None | Some [] => false
  | Some _ => true
  end.

Definition serialization_err_msg (val : scalar) : text :=
  match val with
  | VOther str_v type_v =>
      $"value " ++ DQ ++ str_v ++ DQ ++ $" of type " ++ DQ ++ type_v ++ DQ
        ++ $" cannot be serialized"
  | _ => []
  end.

Definition _to_sql_value (val : scalar) (col_type : option text) : result text :=
  let col_type :=
    if negb (truthy col_type) then
      match PG_TYPES val with
      | Some t => Some t
      | None => col_type
      end
    else col_type in
  serialized <-
    match PG_VALUE_SERIALIZERS val with
    | Some s => OK s
    | None =>
        match val with
        | VNone => OK $"null"
        | _ => throw ValueSerializationError (serialization_err_msg val) NoSQL
        end
    end ;;
  OK (if truthy col_type
      then serialized ++ $"::" ++ match col_type with Some t => t | None => [] end
      else serialized).

(** A row of a dataset: a sequence of scalars, or a dictionary from column
    name to scalar (in insertion order). *)
Inductive row : Type :=
| RowSeq (vals : list scalar)
| RowDict (items : list (text * scalar)).

(** [len(row)] and [list(row)]: iterating a dictionary yields its keys. *)
Definition row_len (r : row) : nat :=
  match r with
  | RowSeq vals => length vals
  | RowDict items => length items
  end.

Definition row_iter (r : row) : list scalar :=
  match r with
  | RowSeq vals => vals
  | RowDict items => map (fun kv => VStr (fst kv)) items
  end.

(** [zip(a, b)] *)
Definition zip {A B} (a : list A) (b : list B) : list (A * B) := combine a b.

(** Running a generator of serializations to its end, as [','.join] does:
    the first failure is the one raised. *)
Fixpoint collect {A} (l : list (result A)) : result (list A) :=
  match l with
  | [] => OK []
  | r :: l' => x <- r ;; xs <- collect l' ;; OK (x :: xs)
  end.

Definition _row_to_sql_values (r : row) (col_types : list (option text))
  : result text :=
  let r :=
    if negb (length col_types =? 0)%nat && (row_len r <? length col_types)%nat
    then row_iter r ++ repeat VNone (length col_types - row_len r)
    else row_iter r in
  serialized <-
    (if negb (length col_types =? 0)%nat
     then collect (map (fun vc => _to_sql_value (fst vc) (snd vc)) (zip r col_types))
     else collect (map (fun val => _to_sql_value val None) r)) ;;
  OK ($"(" ++ Py.join $"," serialized ++ $")").

(** [{col: i for i, col in enumerate(cols)}[col]]: the last position of
    [col] in [cols]. *)
Fixpoint col_pos_from (cols : list text) (i : nat) (col : text) : option nat :=
  match cols with
  | [] => None
  | c :: cols' =>
      match col_pos_from cols' (S i) col with
      | Some j => Some j
      | None => if list_eq_dec ascii_dec c col then Some i else None
      end
  end.

Definition col_pos (cols : list text) (col : text) : option nat :=
  col_pos_from cols 0 col.

(** [l[i] = v] for an index known to be in range. *)
Fixpoint list_set {A} (l : list A) (i : nat) (v : A) : list A :=
  match l, i with
  | [], _ => []
  | _ :: l', O => v :: l'
  | x :: l', S i' => x :: list_set l' i' v
  end.

(** The inner loop over [dict_row.items()]: [inr col] is the [KeyError] on
    [col_pos[col]]. *)
Fixpoint fill_row (cols : list text) (items : list (text * scalar))
         (list_row : list scalar) : list scalar + text :=
  match items with
  | [] => inl list_row
  | (col, val) :: items' =>
      match col_pos cols col with
      | Some i => fill_row cols items' (list_set list_row i val)
      | None => inr col
      end
  end.

Definition column_mismatch_msg (row_num : nat) (col : text) (cols : list text) : text :=
  $"Row " ++ Py.str_int (Z.of_nat row_num)
   ++ $" in patch data provided data for column " ++ DQ ++ col ++ DQ
   ++ $", which is missing in the provided columns for the patch"
   ++ $" (provided columns - " ++ DQ ++ Py.join $", " cols ++ DQ ++ $")".

(** The outer loop of [_convert_dict_rows_to_lists], from row [row_num]. *)
Fixpoint convert_rows_from (cols : list text) (dict_rows : list row) (row_num : nat)
  : result (list row) :=
  match dict_rows with
  | [] => OK []
  | RowSeq _ :: _ => raise AttributeError   (* a sequence has no [items] *)
  | RowDict items :: rest =>
      match fill_row cols items (repeat VNone (length cols)) with
      | inr col =>
          throw ColumnMismatchInPatchError (column_mismatch_msg row_num col cols) NoSQL
      | inl list_row =>
          rest' <- convert_rows_from cols rest (S row_num) ;;
          OK (RowSeq list_row :: rest')
      end
  end.

Definition _convert_dict_rows_to_lists (dict_rows : list row) (cols : list text)
  : result (list row) :=
  convert_rows_from cols dict_rows 0.

(** [col.split('::')[k]], which the code takes for [k = 0] and [k = 1] only
    when ['::'] occurs in [col]. *)
Definition col_part (col : text) (k : nat) : text :=
  nth k (Py.split $"::" col) [].

Definition col_type_of (col : text) : option text :=
  if negb (Py.contains $"::" col) then None else Some (col_part col 1).

Definition col_name_of (col : text) : text :=
  if negb (Py.contains $"::" col) then col else col_part col 0.

Definition _gen_values (rows : list row) (cols : option (list text))
           (alias : option text) (select_all_from : bool) : result text :=
  let empty_values := match rows with [] => true | _ => false end in
  let rows := match rows with [] => [RowSeq []] | _ => rows end in
  let cols := match cols with Some c => c | None => [] end in
  let col_types := map col_type_of cols in
  let col_names := map col_name_of cols in
  rows <-
    match rows with
    | RowDict _ :: _ =>
        match cols with
        | [] =>
            throw ColumnsNeededForPatchError
              ($"Columns must also be provided when using list of dictionaries as rows"
               ++ $" to pgmock.patch or pgmock.data") NoSQL
        | _ => _convert_dict_rows_to_lists rows col_names
        end
    | _ => OK rows
    end ;;
  row_values <- collect (map (fun r => _row_to_sql_values r col_types) rows) ;;
  let values := $"VALUES " ++ Py.join $"," row_values in
  let values := if empty_values then values ++ $" LIMIT 0" else values in
  let values :=
    if truthy alias
    then $"(" ++ values ++ $") AS " ++ match alias with Some a => a | None => [] end
          ++ $"(" ++ Py.join $"," (map (fun col => DQ ++ col ++ DQ) col_names) ++ $")"
    else values in
  let values := if select_all_from then $"SELECT * FROM " ++ values else values in
  OK values.

(** ** The part of Python's [re] module the source relies on *)
Module Re.

Inductive regex : Type :=
| Eps
| Chr (p : ascii -> bool)      (* one character of a class *)
| Cat (r1 r2 : regex)
| Alt (r1 r2 : regex)          (* r1|r2, r1 tried first *)
| Star (r : regex)             (* r*, greedy *)
| NotAhead (r : regex)         (* (?!r) *)
| WordB                        (* \b *)
| GroupPre (r : regex).        (* (?P<pre>r) *)

(** A position of the matcher in the subject: the characters already
    consumed (last one first), the characters left, and where the group
    [pre] ended if it took part in the match. *)
Record state : Type := State {
  consumed : text;
  rest : text;
  pre_end : option nat
}.

Definition pos (st : state) : nat := length (consumed st).

Definition is_word (c : ascii) : bool :=
  let n := nat_of_ascii c in
  ((48 <=? n) && (n <=? 57) || (65 <=? n) && (n <=? 90)
   || (97 <=? n) && (n <=? 122) || (n =? 95))%nat.

Definition is_word_at (s : text) : bool :=
  match s with
  | c :: _ => is_word c
  | [] => false
  end.

(** All the ways [r] matches from [st], in the order a backtracking
    matcher tries them; the head is the match Python reports. *)
Fixpoint run (r : regex) (st : state) : list state :=
  match r with
  | Eps => [st]
  | Chr p =>
      match rest st with
      | c :: s' => if p c then [State (c :: consumed st) s' (pre_end st)] else []
      | [] => []
      end
  | Cat r1 r2 => flat_map (run r2) (run r1 st)
  | Alt r1 r2 => run r1 st ++ run r2 st
  | Star r1 =>
      (fix star (fuel : nat) (st : state) {struct fuel} : list state :=
         match fuel with
         | O => [st]
         | S fuel' =>
             flat_map (fun st' =>
                         if (length (rest st') <? length (rest st))%nat
                         then star fuel' st' else [])
                      (run r1 st)
             ++ [st]
         end) (length (rest st)) st
  | NotAhead r1 =>
      match run r1 st with
      | [] => [st]
      | _ :: _ => []
      end
  | WordB =>
      if xorb (is_word_at (consumed st)) (is_word_at (rest st)) then [st] else []
  | GroupPre r1 =>
      map (fun st' => State (consumed st') (rest st') (Some (pos st'))) (run r1 st)
  end.

(** A match object: [span()] and the length of [group('pre')]. *)
Record rmatch : Type := Match {
  span_start : Z;
  span_end : Z;
  len_pre : Z
}.

Definition match_of (st st' : state) : rmatch :=
  Match (Z.of_nat (pos st)) (Z.of_nat (pos st'))
        (match pre_end st' with
         | Some e => Z.of_nat (e - pos st)
         | None => 0
         end).

(** [re.finditer]: scan from the left, report the first match at the
    leftmost position, resume where it ended. *)
Fixpoint finditer_from (r : regex) (fuel : nat) (before after : text)
  : list rmatch :=
  match fuel with
  | O => []
  | S fuel' =>
      let st := State before after None in
      match run r st, after with
      | st' :: _, c :: after' =>
          if (pos st' =? pos st)%nat
          then match_of st st' :: finditer_from r fuel' (c :: before) after'
          else match_of st st' :: finditer_from r fuel' (consumed st') (rest st')
      | st' :: _, [] => [match_of st st']
      | [], c :: after' => finditer_from r fuel' (c :: before) after'
      | [], [] => []
      end
  end.

Definition finditer (r : regex) (s : text) : list rmatch :=
  finditer_from r (S (length s)) [] s.

(** [re.sub(r, repl, s)] for a replacement without backslashes. *)
Fixpoint sub_from (r : regex) (repl : text) (fuel : nat) (before after : text)
  : text :=
  match fuel with
  | O => after
  | S fuel' =>
      let st := State before after None in
      match run r st, after with
      | st' :: _, c :: after' =>
          if (pos st' =? pos st)%nat
          then repl ++ c :: sub_from r repl fuel' (c :: before) after'
          else repl ++ sub_from r repl fuel' (consumed st') (rest st')
      | st' :: _, [] => repl
      | [], c :: after' => c :: sub_from r repl fuel' (c :: before) after'
      | [], [] => []
      end
  end.

Definition sub (r : regex) (repl : text) (s : text) : text :=
  sub_from r repl (S (length s)) [] s.

(** *** Building patterns *)

Definition lower (c : ascii) : ascii :=
  let n := nat_of_ascii c in
  if ((65 <=? n) && (n <=? 90))%nat then ascii_of_nat (n + 32) else c.

Definition seq (rs : list regex) : regex := fold_right Cat Eps rs.

(** One literal character; [ic] is the flag [re.IGNORECASE]. *)
Definition chr (ic : bool) (c : ascii) : regex :=
  Chr (fun x => if ic then Ascii.eqb (lower x) (lower c) else Ascii.eqb x c).

(** A literal string, as [re.escape] makes of it. *)
Definition lit (ic : bool) (s : text) : regex := seq (map (chr ic) s).

Definition plus (r : regex) : regex := Cat r (Star r).
Definition opt (r : regex) : regex := Alt r Eps.
Definition ws : regex := Chr Py.isspace.                          (* \s *)
Definition word : regex := Chr is_word.                           (* \w *)
Definition dot : regex := Chr (fun c => negb (Ascii.eqb c NL)).   (* . *)

End Re.

(** ** Views *)

Open Scope Z_scope.

(** A [slice(start, stop)] object with integer endpoints. *)
Record slice : Type := Slice {
  start : Z;
  stop : Z
}.

(** [text[sl]] *)
Definition at_slice {A} (s : list A) (sl : slice) : list A :=
  Py.slice s (start sl) (stop sl).

Record PatchParams : Type := mkPatchParams {
  patch_alias : option text;
  select_all_from : bool;
  orig_alias : option text
}.

(** [PatchParams.__init__]: [orig_alias or patch_alias]. *)
Definition PatchParams_init (patch_alias : option text) (select_all_from : bool)
           (orig_alias : option text) : PatchParams :=
  mkPatchParams patch_alias select_all_from
                (if truthy orig_alias then orig_alias else patch_alias).

Record View : Type := mkView {
  bounds : slice;
  patch : option slice;
  patch_params : PatchParams
}.

(** [View.__init__]: [patch_params or PatchParams()]. *)
Definition View_init (bounds : slice) (patch : option slice)
           (patch_params : option PatchParams) : View :=
  mkView (Slice (start bounds) (stop bounds))
         (match patch with
          | Some p => Some (Slice (start p) (stop p))
          | None => None
          end)
         (match patch_params with
          | Some pp => pp
          | None => PatchParams_init None false None
          end).

Definition from_offset (self : View) (offset : Z) : View :=
  View_init (Slice (start (bounds self) + offset) (stop (bounds self) + offset))
            (match patch self with
             | Some p => Some (Slice (start p + offset) (stop p + offset))
             | None => None
             end)
            (Some (patch_params self)).

(** Truth value of an optional list: [None] and [[]] are false. *)
Definition truthy_list {A} (l : option (list A)) : bool :=
  match l with
  | None | Some [] => false
  | Some _ => true
  end.

Definition check_is_patchable (self : View) (cols : option (list text))
  : result unit :=
  match patch self with
  | None => throw UnpatchableError $"Expression is not able to be patched." NoSQL
  | Some _ =>
      if truthy (patch_alias (patch_params self)) && negb (truthy_list cols)
      then throw ColumnsNeededForPatchError
                 $"Must provide columns when patching SQL with aliases." NoSQL
      else OK tt
  end.

(** ** [RenderSQL] and [Renderer] *)

Record RenderSQL : Type := mkRenderSQL {
  stripped_sql : option text;
  raw_sql : text;
  search_sql : text
}.

Definition RenderSQL_init (cfg : config) (sql : text) : result RenderSQL :=
  stripped <-
    (if safe_mode cfg then
       s <- _strip_comments_and_string_literals sql ;;
       if (length s =? length sql)%nat then OK (Some s) else raise AssertionError
     else OK None) ;;
  OK (mkRenderSQL stripped sql
                  (if truthy stripped
                   then match stripped with Some s => s | None => sql end
                   else sql)).

Record Renderer : Type := mkRenderer {
  rendering_sql : RenderSQL;
  views : list View
}.

(** The [sql] argument of [Renderer(...)]: a string or a [RenderSQL]. *)
Inductive sql_arg : Type :=
| SqlStr (sql : text)
| SqlRender (rsql : RenderSQL).

(** The [view] argument of [Renderer(...)]: absent, one view, or a list. *)
Inductive view_arg : Type :=
| NoView
| OneView (v : View)
| ManyViews (vs : list View).

(** The loop of [Renderer.__init__] over [enumerate(self.views[1:], 1)]:
    does some view start before the stop of the view on its left? *)
Fixpoint has_nested (views : list View) : bool :=
  match views with
  | left_view :: ((right_view :: _) as rest) =>
      (start (bounds right_view) <? stop (bounds left_view)) || has_nested rest
  | _ => false
  end.

(** [RenderSQL(sql) if isinstance(sql, str) else sql] *)
Definition to_RenderSQL (cfg : config) (sql : sql_arg) : result RenderSQL :=
  match sql with
  | SqlStr s => RenderSQL_init cfg s
  | SqlRender r => OK r
  end.

Definition Renderer_init (cfg : config) (sql : sql_arg) (view : view_arg)
  : result Renderer :=
  rsql <- to_RenderSQL cfg sql ;;
  let views :=
    match view with
    | NoView => [View_init (Slice 0 (Py.len (raw_sql rsql))) None None]
    | OneView v => [v]
    | ManyViews vs => vs
    end in
  if has_nested views
  then throw NestedMatchError $"Nested matches were found in your selection."
             (ManySQL (map (fun v => at_slice (raw_sql rsql) (bounds v)) views))
  else OK (mkRenderer rsql views).

Definition multiple_match_msg : text :=
  $"An invalid operation has occurred on a selector that has multiple matches,"
   ++ $" for example selecting the body of two " ++ DQ ++ $"insert into" ++ DQ
   ++ $" statements."
   ++ $" Refine your selection by using the array syntax on your selector.".

(** The property [view]. *)
Definition view (self : Renderer) : result View :=
  match views self with
  | [v] => OK v
  | _ =>
      throw MultipleMatchError multiple_match_msg
            (ManySQL (map (fun v => at_slice (raw_sql (rendering_sql self)) (bounds v))
                          (views self)))
  end.

Definition sql_view (self : Renderer) : result text :=
  v <- view self ;; OK (at_slice (raw_sql (rendering_sql self)) (bounds v)).

Definition search_view (self : Renderer) : result text :=
  v <- view self ;; OK (at_slice (search_sql (rendering_sql self)) (bounds v)).

(** The subscript of [__getitem__]: an integer or a slice. *)
Inductive subscript : Type :=
| Idx (i : Z)
| IdxSlice (a b : option Z).

Definition getitem (cfg : config) (self : Renderer) (index : subscript)
  : result Renderer :=
  match index with
  | Idx i =>
      match Py.index (views self) i with
      | Some v => Renderer_init cfg (SqlRender (rendering_sql self)) (OneView v)
      | None => raise IndexError
      end
  | IdxSlice a b =>
      Renderer_init cfg (SqlRender (rendering_sql self))
                    (ManyViews (Py.slice_opt (views self) a b))
  end.

Definition body (cfg : config) (self : Renderer) : result Renderer :=
  v <- view self ;;
  match patch v with
  | Some p =>
      Renderer_init cfg (SqlRender (rendering_sql self))
                    (OneView (View_init p (Some p) None))
  | None =>
      s <- sql_view self ;;
      throw NoMatchError $"No patchable body found." (OneSQL s)
  end.

Definition SEMI : ascii := ";"%char.

Definition statement_err_msg (count start_ end_ : Z) : text :=
  $"Found " ++ Py.str_int count ++ $" statements. Range of ["
   ++ Py.str_int start_ ++ $":" ++ Py.str_int end_ ++ $"] is out of bounds.".

Definition statement (cfg : config) (self : Renderer) (start_ : Z) (end_ : option Z)
  : result Renderer :=
  sql <- search_view self ;;
  let parts := Py.split_char SEMI sql in
  let end_ := match end_ with
              | None | Some 0 => start_ + 1
              | Some e => e
              end in
  if negb (end_ >=? start_) then raise AssertionError else
  if negb (start_ >=? 0) then raise AssertionError else
  if (start_ >=? Py.len parts) || (end_ >? Py.len parts)
  then throw StatementParseError (statement_err_msg (Py.len parts) start_ end_)
             (OneSQL sql)
  else
    let stmt_start := Py.sum_len (Py.slice_to parts start_) + start_ in
    let stmt_end := stmt_start + Py.sum_len (Py.slice parts start_ end_)
                    + (end_ - start_ - 1) in
    v <- view self ;;
    Renderer_init cfg (SqlRender (rendering_sql self))
      (OneView (from_offset (View_init (Slice stmt_start stmt_end) None None)
                            (start (bounds v)))).

(** ** The regex-anchored matchers *)

Definition _get_end_statement (sql : text) (start_ : Z) : Z :=
  let found := Py.find sql SEMI start_ in
  if found =? -1 then Py.len sql else found.

(** The pattern of [subquery], token by token:
    [\)] [\s*] [(as\s+)?] alias [(?!\w)] *)
Definition subquery_regex (alias : text) : Re.regex :=
  Re.seq [Re.chr true RPAREN; Re.Star Re.ws;
          Re.opt (Re.seq [Re.lit true $"as"; Re.plus Re.ws]);
          Re.lit true alias; Re.NotAhead Re.word].

(** The pattern of [cte], token by token:
    [(?:] with [\s+] or , [\s*] [)] alias
    [(?:] [\s*] [\(] [.*] [\)] [\s*] or [\s+] [)] as [\s*] [\(] *)
Definition cte_regex (alias : text) : Re.regex :=
  Re.seq [Re.Alt (Re.seq [Re.lit true $"with"; Re.plus Re.ws])
                 (Re.seq [Re.chr true ","%char; Re.Star Re.ws]);
          Re.lit true alias;
          Re.Alt (Re.seq [Re.Star Re.ws; Re.chr true LPAREN; Re.Star Re.dot;
                          Re.chr true RPAREN; Re.Star Re.ws])
                 (Re.plus Re.ws);
          Re.lit true $"as"; Re.Star Re.ws; Re.chr true LPAREN].

(** The pattern of [insert_into], token by token:
    insert [\s+] into [\s+] table
    [(?:] [\s*] [\(] or [\s+] one of word character, slash, dash [)] *)
Definition insert_into_regex (table : text) : Re.regex :=
  Re.seq [Re.lit true $"insert"; Re.plus Re.ws; Re.lit true $"into"; Re.plus Re.ws;
          Re.lit true table;
          Re.Alt (Re.seq [Re.Star Re.ws; Re.chr true LPAREN])
                 (Re.seq [Re.plus Re.ws;
                          Re.Chr (fun c => Re.is_word c || Ascii.eqb c "/"%char
                                           || Ascii.eqb c "-"%char)])].

(** The pattern of [create_table_as], token by token:
    create [\s+] table [\s+] table
    [(?:] [\s*] [\(] [.*] [\)] [\s*] or [\s+] [)] as *)
Definition create_table_as_regex (table : text) : Re.regex :=
  Re.seq [Re.lit true $"create"; Re.plus Re.ws; Re.lit true $"table"; Re.plus Re.ws;
          Re.lit true table;
          Re.Alt (Re.seq [Re.Star Re.ws; Re.chr true LPAREN; Re.Star Re.dot;
                          Re.chr true RPAREN; Re.Star Re.ws])
                 (Re.plus Re.ws);
          Re.lit true $"as"].

(** The pattern of [table]: the group [pre] is from or join, then [\s+];
    then the table; with an alias [\s+] [(as\s+)?] alias; and [(?!\w)]. *)
Definition table_regex (table : text) (alias : option text) : Re.regex :=
  let pre := Re.GroupPre (Re.seq [Re.Alt (Re.lit true $"from") (Re.lit true $"join");
                                  Re.plus Re.ws]) in
  if truthy alias
  then Re.seq [pre; Re.lit true table; Re.plus Re.ws;
               Re.opt (Re.seq [Re.lit true $"as"; Re.plus Re.ws]);
               Re.lit true (match alias with Some a => a | None => [] end);
               Re.NotAhead Re.word]
  else Re.seq [pre; Re.lit true table; Re.NotAhead Re.word].

(** The body of the loop over the matches of [subquery]. *)
Definition subquery_view (self : Renderer) (sql alias : text) (m : Re.rmatch)
  : result View :=
  let right_paren := Re.span_start m in
  let alias_end := Re.span_end m in
  left_paren <- _find_enclosing_paren sql right_paren Backward ;;
  let select_bounds := Slice (left_paren + 1) right_paren in
  let patch_bounds := Slice left_paren alias_end in
  let patch_params := PatchParams_init (Some alias) false None in
  v <- view self ;;
  OK (from_offset (View_init select_bounds (Some patch_bounds) (Some patch_params))
                  (start (bounds v))).

Definition subquery (cfg : config) (self : Renderer) (alias : text)
  : result Renderer :=
  sql <- search_view self ;;
  let no_match_msg := $"No subquery found for alias " ++ DQ ++ alias ++ DQ ++ $"." in
  let matches := Re.finditer (subquery_regex alias) sql in
  match matches with
  | [] => throw NoMatchError no_match_msg (OneSQL sql)
  | _ =>
      vs <- collect (map (subquery_view self sql alias) matches) ;;
      Renderer_init cfg (SqlRender (rendering_sql self)) (ManyViews vs)
  end.

(** The body of the loop over the matches of [cte]. *)
Definition cte_view (self : Renderer) (sql : text) (m : Re.rmatch) : result View :=
  let left_paren := Re.span_end m - 1 in
  right_paren <- _find_enclosing_paren sql left_paren Forward ;;
  let cte_bounds := Slice (left_paren + 1) right_paren in
  let patch_params := PatchParams_init (Some $"pgmock") true None in
  v <- view self ;;
  OK (from_offset (View_init cte_bounds (Some cte_bounds) (Some patch_params))
                  (start (bounds v))).

Definition cte (cfg : config) (self : Renderer) (alias : text)
  : result Renderer :=
  sql <- search_view self ;;
  let no_match_msg := $"No CTE found for alias " ++ DQ ++ alias ++ DQ ++ $"." in
  let matches := Re.finditer (cte_regex alias) sql in
  match matches with
  | [] => throw NoMatchError no_match_msg (OneSQL sql)
  | _ =>
      vs <- collect (map (cte_view self sql) matches) ;;
      Renderer_init cfg (SqlRender (rendering_sql self)) (ManyViews vs)
  end.

(** The body of the loop over the matches of [insert_into]. *)
Definition insert_into_view (self : Renderer) (sql : text) (m : Re.rmatch)
  : result View :=
  let insert_start := Re.span_start m in
  let insert_end := Re.span_end m - 1 in
  let end_idx := _get_end_statement sql insert_end in
  insert_end <-
    match Py.index sql insert_end with
    | None => raise IndexError
    | Some c =>
        if Ascii.eqb c LPAREN then
          rp <- _find_enclosing_paren sql insert_end Forward ;;
          let right_paren := rp + 1 in
          (* the text up to the end of the statement is not all blank:
             this is "insert into (statement)" *)
          match Py.strip (Py.slice sql right_paren end_idx) with
          | [] => OK insert_end
          | _ => OK right_paren
          end
        else OK insert_end
    end ;;
  let patch_bounds := Slice insert_end end_idx in
  v <- view self ;;
  OK (from_offset (View_init (Slice insert_start end_idx) (Some patch_bounds) None)
                  (start (bounds v))).

Definition insert_into (cfg : config) (self : Renderer) (table : text)
  : result Renderer :=
  sql <- search_view self ;;
  let matches := Re.finditer (insert_into_regex table) sql in
  match matches with
  | [] => throw NoMatchError ($"No " ++ DQ ++ $"insert into" ++ DQ
                              ++ $" statement found.") (OneSQL sql)
  | _ =>
      vs <- collect (map (insert_into_view self sql) matches) ;;
      Renderer_init cfg (SqlRender (rendering_sql self)) (ManyViews vs)
  end.

(** The body of the loop over the matches of [create_table_as]. *)
Definition create_table_as_view (self : Renderer) (sql : text) (m : Re.rmatch)
  : result View :=
  let create_start := Re.span_start m in
  let cta_end := Re.span_end m in
  let end_idx := _get_end_statement sql create_start in
  let patch_bounds := Slice cta_end end_idx in
  let patch_params := PatchParams_init (Some $"pgmock") true None in
  v <- view self ;;
  OK (from_offset (View_init (Slice create_start end_idx) (Some patch_bounds)
                             (Some patch_params))
                  (start (bounds v))).

Definition create_table_as (cfg : config) (self : Renderer) (table : text)
  : result Renderer :=
  sql <- search_view self ;;
  let matches := Re.finditer (create_table_as_regex table) sql in
  match matches with
  | [] => throw NoMatchError ($"No " ++ DQ ++ $"create table as" ++ DQ
                              ++ $" statement found.") (OneSQL sql)
  | _ =>
      vs <- collect (map (create_table_as_view self sql) matches) ;;
      Renderer_init cfg (SqlRender (rendering_sql self)) (ManyViews vs)
  end.

Definition table_no_match_msg (table : text) (alias : option text) : text :=
  $"No table " ++ DQ ++ table ++ DQ ++ $" "
   ++ (if truthy alias
       then $"with alias " ++ DQ ++ match alias with Some a => a | None => [] end
             ++ DQ ++ $" "
       else [])
   ++ $"found.".

(** The body of the loop over the matches of [table]. *)
Definition table_view (table : text) (alias : option text) (m : Re.rmatch) : View :=
  let bounds := Slice (Re.span_start m + Re.len_pre m) (Re.span_end m) in
  let patch_alias :=
    if truthy alias then alias
    else if negb (Py.contains $"." table) then Some table
         else Some (nth 1 (Py.split_char "."%char table) []) in
  let patch_params :=
    PatchParams_init patch_alias false (if truthy alias then alias else Some table) in
  View_init bounds (Some bounds) (Some patch_params).

Definition table (cfg : config) (self : Renderer) (table : text)
           (alias : option text) : result Renderer :=
  sql <- search_view self ;;
  let matches := Re.finditer (table_regex table alias) sql in
  match matches with
  | [] => throw NoMatchError (table_no_match_msg table alias) (OneSQL sql)
  | _ =>
      Renderer_init cfg (SqlStr sql) (ManyViews (map (table_view table alias) matches))
  end.

(** ** The rewrite operation *)

(** What the call [side_effect()] gives when [patch] makes it: the side
    effect is exhausted, or its next entry is [None], or it is
    [pgmock.data(rows, cols)]. *)
Inductive side_effect_call : Type :=
| SE_exhausted (length_ : nat)
| SE_none
| SE_data (rows : option (list row)) (cols : option (list text)).

Definition side_effect_exhausted_msg (n : nat) : text :=
  $"Side effect of length " ++ Py.str_int (Z.of_nat n) ++ $" has been exhausted".

(** The pattern of the alias rewrite: [\b], the original alias, a dot. *)
Definition alias_regex (orig_alias : text) : Re.regex :=
  Re.seq [Re.WordB; Re.lit false orig_alias; Re.chr false "."%char].

Definition opt_text_eqb (a b : option text) : bool :=
  match a, b with
  | None, None => true
  | Some x, Some y => if list_eq_dec ascii_dec x y then true else false
  | _, _ => false
  end.

(** The update of references to the original alias, inside the loop of
    [patch]. *)
Definition rewrite_alias (cfg : config) (patch_args : PatchParams)
           (patched_sql : text) : result text :=
  if replace_new_patch_aliases cfg then
    if truthy (patch_alias patch_args)
       && negb (opt_text_eqb (orig_alias patch_args) (patch_alias patch_args))
    then
      match orig_alias patch_args, patch_alias patch_args with
      | Some orig, Some palias =>
          if negb (length palias <=? length orig)%nat then raise AssertionError
          else
            let replace_alias := Py.rjust palias (length orig) ++ $"." in
            OK (Re.sub (alias_regex orig) replace_alias patched_sql)
      | _, _ => raise AttributeError
      end
    else OK patched_sql
  else OK patched_sql.

(** The body of the loop of [patch] for one view; [offset] is [Some] of
    [self.view.bounds.start] when a selector was given. The loop variables
    are [patched_sql] and [adjustment]. *)
Definition patch_step (cfg : config) (rows : list row) (cols : option (list text))
           (offset : option Z) (rendered_view : View) (acc : text * Z)
  : result (text * Z) :=
  let '(patched_sql, adjustment) := acc in
  let patch_args := patch_params rendered_view in
  _ <- check_is_patchable rendered_view cols ;;
  values <- _gen_values rows cols (patch_alias patch_args)
                        (select_all_from patch_args) ;;
  match patch rendered_view with
  | None => raise AttributeError
  | Some p =>
      let p := match offset with
               | Some o => Slice (o + start p) (o + stop p)
               | None => p
               end in
      let patched_sql :=
        Py.slice_to patched_sql (start p - adjustment) ++ $" " ++ values
        ++ Py.slice_from patched_sql (stop p - adjustment) in
      patched_sql <- rewrite_alias cfg patch_args patched_sql ;;
      OK (patched_sql, adjustment + (stop p - start p - (Py.len values + 1)))
  end.

Fixpoint patch_loop (cfg : config) (rows : list row) (cols : option (list text))
         (offset : option Z) (rendered_views : list View) (acc : text * Z)
  : result (text * Z) :=
  match rendered_views with
  | [] => OK acc
  | rendered_view :: rest =>
      acc' <- patch_step cfg rows cols offset rendered_view acc ;;
      patch_loop cfg rows cols offset rest acc'
  end.

(** [Renderer.patch]. [selector] is the [render] method of the selector
    when one is given. *)
Definition Renderer_patch (cfg : config) (self : Renderer)
           (selector : option (text -> result Renderer))
           (rows : option (list row)) (cols : option (list text))
           (side_effect : option side_effect_call) : result Renderer :=
  let rows := match rows with Some r => r | None => [] end in
  let patch_with (rows : list row) (cols : option (list text)) :=
    rendered <- match selector with
                | Some render => s <- sql_view self ;; render s
                | None => OK self
                end ;;
    offset <- match selector with
              | Some _ => v <- view self ;; OK (Some (start (bounds v)))
              | None => OK None
              end ;;
    acc <- patch_loop cfg rows cols offset (views rendered)
                      (raw_sql (rendering_sql self), 0) ;;
    let '(patched_sql, adjustment) := acc in
    v <- view self ;;
    Renderer_init cfg (SqlStr patched_sql)
      (OneView (View_init (Slice (start (bounds v)) (stop (bounds v) - adjustment))
                          None None)) in
  match side_effect with
  | Some call =>
      if (match rows with [] => false | _ => true end) || truthy_list cols
      then raise ValueError
      else
        match call with
        | SE_exhausted n =>
            throw SideEffectExhaustedError (side_effect_exhausted_msg n) NoSQL
        | SE_none => OK self
        | SE_data rows cols =>
            patch_with (match rows with Some r => r | None => [] end) cols
        end
  | None => patch_with rows cols
  end.

(** ** The deferred operation chain *)

(** A [RenderMethod]: the name of a method of [Renderer] with its
    arguments. *)
#[warnings="-register-all"]
Inductive RenderMethod : Type :=
| M_getitem (index : subscript)
| M_statement (start_ : Z) (end_ : option Z)
| M_body
| M_cte (alias : text)
| M_insert_into (table : text)
| M_subquery (alias : text)
| M_table (table : text) (alias : option text)
| M_create_table_as (table : text)
| M_patch (selector : option (list RenderMethod)) (rows : option (list row))
          (cols : option (list text)) (side_effect : option side_effect_call).

(** [Renderable.render]: start from [Renderer(sql)] and call the methods of
    the chain in order. *)
Fixpoint call_method (cfg : config) (m : RenderMethod) (renderer : Renderer)
  {struct m} : result Renderer :=
  match m with
  | M_getitem index => getitem cfg renderer index
  | M_statement s e => statement cfg renderer s e
  | M_body => body cfg renderer
  | M_cte alias => cte cfg renderer alias
  | M_insert_into t => insert_into cfg renderer t
  | M_subquery alias => subquery cfg renderer alias
  | M_table t alias => table cfg renderer t alias
  | M_create_table_as t => create_table_as cfg renderer t
  | M_patch selector rows cols side_effect =>
      Renderer_patch cfg renderer
        (match selector with
         | None => None
         | Some chain =>
             Some (fun sql =>
                     r0 <- Renderer_init cfg (SqlStr sql) NoView ;;
                     (fix play (ms : list RenderMethod) (r : Renderer)
                        : result Renderer :=
                        match ms with
                        | [] => OK r
                        | m' :: ms' => r' <- call_method cfg m' r ;; play ms' r'
                        end) chain r0)
         end)
        rows cols side_effect
  end.

Fixpoint play (cfg : config) (chain : list RenderMethod) (renderer : Renderer)
  : result Renderer :=
  match chain with
  | [] => OK renderer
  | m :: chain' => r <- call_method cfg m renderer ;; play cfg chain' r
  end.

Definition render (cfg : config) (chain : list RenderMethod) (sql : text)
  : result Renderer :=
  renderer <- Renderer_init cfg (SqlStr sql) NoView ;;
  play cfg chain renderer.

(** [pgmock.sql(query, selector, safe_mode)] up to the final
    [str(sqla.text(...))]. *)
Definition sql (cfg : config) (query : text) (chain : list RenderMethod)
           (safe : option bool) : result text :=
  let cfg := Config (match safe with Some b => b | None => safe_mode cfg end)
                    (replace_new_patch_aliases cfg) in
  r <- render cfg chain query ;; sql_view r.

(** * Properties *)

(** ** The examples of the test suite and of the specification *)

Example strip_ex5 :
  _strip_comments_and_string_literals ($"select 1 -- comment" ++ [NL])
  = OK ($"select 1 --        " ++ [NL]).
Proof. reflexivity. Qed.

Example gen_values_alias_w_null :
  _gen_values [RowSeq [VInt 1; VStr $"1"; VFloat $"1.1"];
               RowSeq [VInt 2; VStr $"2"; VFloat $"2.2"]]
              (Some [$"a"; $"b"; $"c"; $"fill"]) (Some $"d") false
  = OK ($"(VALUES (1,'1',1.1,null),(2,'2',2.2,null)) AS d("
        ++ DQ ++ $"a" ++ DQ ++ $"," ++ DQ ++ $"b" ++ DQ ++ $"," ++ DQ ++ $"c" ++ DQ
        ++ $"," ++ DQ ++ $"fill" ++ DQ ++ $")").
Proof. reflexivity. Qed.

Example gen_values_dict_rows :
  _gen_values [RowDict [($"c1", VInt 1)]; RowDict [($"c2", VStr $"1")]]
              (Some [$"c1"; $"c2"; $"c3"]) None false
  = OK $"VALUES (1,null,null),(null,'1',null)".
Proof. reflexivity. Qed.

Example statement_ex1 :
  (r <- Renderer_init default_config
          (SqlStr $"select * from a; select * from b; select * from c") NoView ;;
   r' <- statement default_config r 0 None ;;
   sql_view r')
  = OK $"select * from a".
Proof. reflexivity. Qed.

Example patch_ex2 :
  sql default_config $"select t1.c1 from t1"
      [M_patch (Some [M_table $"t1" None]) (Some [RowSeq [VInt 1]]) (Some [$"c1"]) None]
      None
  = OK ($"select t1.c1 from  (VALUES (1)) AS t1(" ++ DQ ++ $"c1" ++ DQ ++ $")").
Proof. vm_compute. reflexivity. Qed.

Example strip_tests :
  _strip_comments_and_string_literals
    ($"/*" ++ [NL] ++ $"a" ++ [NL] ++ $"b" ++ [NL] ++ $"*/" ++ [NL] ++ $"select * from table")
  = OK ($"/*     */" ++ [NL] ++ $"select * from table")
  /\ _strip_comments_and_string_literals
       $"select * from table where mytext = '--' -- This is an in-line comment"
     = OK $"select * from table where mytext = '  ' --                           "
  /\ _strip_comments_and_string_literals
       ($"select * from table" ++ [NL] ++ $" /*This is an in-line /* block comment*/ --")
     = OK ($"select * from table" ++ [NL] ++ $" /*                                   */ --")
  /\ _strip_comments_and_string_literals $"select * from table where i = 'vincent''s'"
     = OK $"select * from table where i = '       '' '".
Proof. repeat split. Qed.

Example cte_ex3 :
  is_exc MultipleMatchError
         (sql default_config $"WITH bb AS (SELECT * FROM a), bb AS (SELECT * FROM c)"
              [M_cte $"bb"] None)
  /\ sql default_config $"WITH bb AS (SELECT * FROM a), bb AS (SELECT * FROM c)"
         [M_cte $"bb"; M_getitem (Idx 0)] None
     = OK $"SELECT * FROM a".
Proof.
  split; [|vm_compute; reflexivity].
  unfold is_exc. do 2 eexists. vm_compute. reflexivity.
Qed.

Example subquery_ex4 :
  is_exc NestedMatchError
         (sql default_config $"select * from (select * from (select * from t) bb) bb;"
              [M_subquery $"bb"] None).
Proof. unfold is_exc. do 2 eexists. vm_compute. reflexivity. Qed.

Example chaining_test :
  sql default_config $"select * from a; select * from b; select * from c"
      [M_patch (Some [M_table $"b" None]) (Some [RowSeq [VInt 1]]) (Some [$"c1"]) None;
       M_patch (Some [M_table $"c" None]) (Some [RowSeq [VInt 1]]) (Some [$"c1"]) None]
      None
  = OK ($"select * from a; select * from  (VALUES (1)) AS b(" ++ DQ ++ $"c1" ++ DQ
        ++ $"); select * from  (VALUES (1)) AS c(" ++ DQ ++ $"c1" ++ DQ ++ $")").
Proof. vm_compute. reflexivity. Qed.

Example alias_rewrite_test :
  sql default_config $"SELECT schema.table_name.col1 from schema.table_name"
      [M_patch (Some [M_table $"schema.table_name" None])
               (Some [RowSeq [VStr $"val1.1"]]) (Some [$"col1"]) None]
      None
  = OK ($"SELECT        table_name.col1 from  (VALUES ('val1.1')) AS table_name("
        ++ DQ ++ $"col1" ++ DQ ++ $")").
Proof. vm_compute. reflexivity. Qed.

Example safe_mode_tests :
  sql default_config $"select bb.c1, bb.c2 from (select * from t where c1 = ')') bb;"
      [M_subquery $"bb"] (Some true)
  = OK $"select * from t where c1 = ')'"
  /\ is_exc InvalidSQLError
       (sql default_config $"select bb.c1, bb.c2 from (select * from t where c1 = ')') bb;"
            [M_subquery $"bb"] (Some false)).
Proof.
  split; [vm_compute; reflexivity|].
  unfold is_exc. do 2 eexists. vm_compute. reflexivity.
Qed.

(** ** The masking pass *)

Lemma length_spaces (n : nat) : length (Py.spaces n) = n.
Proof. apply repeat_length. Qed.

(** Whenever the loop of the masking pass returns, it has added to the
    output exactly as many characters as it was given. *)
Lemma strip_loop_length (sql : text) (prev : option text) (stripped out : text) :
  strip_loop sql prev stripped = OK out ->
  length out = (length stripped + length sql)%nat.
Proof.
  funelim (strip_loop sql prev stripped); clear Heqcall.
  - intros [= <-]. simpl. lia.
  - discriminate.
  - destruct (re_split1_sound toks (c :: s) _ _ _ Hsplit) as [_ Heq].
    rewrite Heq. destruct previous_split_token; intros Hr.
    + apply H in Hr; [|exact []]. rewrite Hr.
      rewrite !length_app, length_spaces. lia.
    + apply H0 in Hr. rewrite Hr. rewrite !length_app. lia.
  - destruct previous_split_token; intros [= <-];
      rewrite length_app, ?length_spaces; reflexivity.
Qed.

(** The masking pass preserves the length of every input it accepts. *)
Lemma strip_length (s out : text) :
  _strip_comments_and_string_literals s = OK out -> length out = length s.
Proof.
  intros H. apply strip_loop_length in H. exact H.
Qed.

Definition DQUOTE : ascii := ascii_of_nat 34.

(** On a text without double quote the masking pass returns: the only key
    missing from [_SPLITTER_REGEXES] is the double quote. *)
Lemma strip_loop_total (sql : text) (prev : option text) (stripped : text) :
  ~ In DQUOTE sql ->
  _SPLITTER_REGEXES prev <> None ->
  exists out, strip_loop sql prev stripped = OK out.
Proof.
  funelim (strip_loop sql prev stripped); clear Heqcall; intros Hdq Hkey.
  - eexists; reflexivity.
  - congruence.
  - destruct (re_split1_sound toks (c :: s) _ _ _ Hsplit) as [Hin Heq].
    assert (Hrest : ~ In DQUOTE rest).
    { intros Hr. apply Hdq. rewrite Heq. rewrite !in_app_iff. auto. }
    destruct previous_split_token as [k|].
    + apply H; [exact [] | exact Hrest | discriminate].
    + apply H0; [exact Hrest|].
      assert (Htok : ~ In DQUOTE this_split_token).
      { intros Hr. apply Hdq. rewrite Heq. rewrite !in_app_iff. auto. }
      simpl in Htoks. injection Htoks as <-.
      destruct Hin as [<-|[<-|[<-|[<-|[]]]]]; try discriminate.
      exfalso. apply Htok. left. reflexivity.
  - destruct previous_split_token; eexists; reflexivity.
Qed.

Lemma strip_total_without_dquote (s : text) :
  ~ In DQUOTE s ->
  exists out, _strip_comments_and_string_literals s = OK out /\ length out = length s.
Proof.
  intros H. destruct (strip_loop_total s None [] H) as [out Hout]; [discriminate|].
  exists out. split; [exact Hout | now apply strip_length].
Qed.

(** C5 (the code departs from the claim). The masking pass does not return
    on every input: a double quote met outside a comment or string literal
    is taken as a delimiter, [_SPLITTER_REGEXES] has no entry for it, and
    the next turn of the loop raises [KeyError]. Here on
    [select "a" from t]. *)
Theorem strip_fails_on_double_quote :
  _strip_comments_and_string_literals ($"select " ++ DQ ++ $"a" ++ DQ ++ $" from t")
  = raise KeyError.
Proof. reflexivity. Qed.

(** ** The paren balancer *)

Example find_enclosing_paren_tests :
  _find_enclosing_paren $"(())" 0 Forward = OK 3
  /\ _find_enclosing_paren $"(())" 1 Forward = OK 2
  /\ _find_enclosing_paren $"(())" 3 Backward = OK 0
  /\ _find_enclosing_paren $"(())" 2 Backward = OK 1
  /\ _find_enclosing_paren $"( stuff ( in between ))" 9 Forward = OK 21
  /\ is_exc InvalidSQLError (_find_enclosing_paren $"( ( )" 0 Forward).
Proof.
  repeat split; try reflexivity. unfold is_exc. do 2 eexists. reflexivity.
Qed.

(** C7 (the code departs from the claim). Going backward from index 0 there
    is no character one position past the index, so the scan is exhausted
    at once and [InvalidSQLError] is due; the code slices from index [-1],
    which Python counts from the end, scans the whole text from its last
    character and returns the negative index [-1]. *)
Theorem find_enclosing_paren_wraps_at_zero :
  _find_enclosing_paren $")(" 0 Backward = OK (-1)
  /\ stride $")(" (0 + dir_int Backward) Backward = $"()"
  /\ _find_enclosing_paren $") bb (" 0 Backward = OK (-1).
Proof. repeat split; reflexivity. Qed.

(** ** Serialization of scalars and rows *)

(** The cast appended to a serialized value: the explicit annotation when
    it is a non-empty string, else the cast inferred from the class of the
    value, else none. *)
Definition cast_suffix (val : scalar) (col_type : option text) : text :=
  match col_type with
  | Some (c :: t) => $"::" ++ c :: t
  | _ => match PG_TYPES val with
         | Some t => $"::" ++ t
         | None => []
         end
  end.

Lemma to_sql_value_supported (val : scalar) (col_type : option text) (s : text) :
  PG_VALUE_SERIALIZERS val = Some s ->
  _to_sql_value val col_type = OK (s ++ cast_suffix val col_type).
Proof.
  intros H.
  destruct val; simpl in H; try discriminate; injection H as <-;
    destruct col_type as [[|c t]|]; unfold _to_sql_value, cast_suffix; simpl;
    rewrite ?app_nil_r; reflexivity.
Qed.

Lemma to_sql_value_none (col_type : option text) :
  _to_sql_value VNone col_type = OK ($"null" ++ cast_suffix VNone col_type).
Proof. destruct col_type as [[|c t]|]; reflexivity. Qed.

(** C8, counterexample: with the annotation [int] the absent value is
    serialized as [null::int], so it is given a cast. *)
Lemma null_is_cast_under_annotation :
  _to_sql_value VNone (Some $"int") = OK $"null::int"
  /\ _to_sql_value VNone (Some $"int") <> OK $"null".
Proof. split; [reflexivity | discriminate]. Qed.

(** C8, amended. The absent value serializes to [null] and no cast is ever
    inferred for it: it carries a cast exactly when a non-empty column type
    is given, and then that one. For every supported scalar a non-empty
    column type replaces the cast inferred from the class of the value,
    which is used when no (or an empty) column type is given. A value of
    any other class fails with [ValueSerializationError], whose message
    names the value and its type. *)
Theorem to_sql_value_casts (val : scalar) (s t : text) :
  PG_VALUE_SERIALIZERS val = Some s ->
  t <> [] ->
  _to_sql_value VNone None = OK $"null"
  /\ _to_sql_value VNone (Some []) = OK $"null"
  /\ _to_sql_value VNone (Some t) = OK ($"null::" ++ t)
  /\ _to_sql_value val (Some t) = OK (s ++ $"::" ++ t)
  /\ _to_sql_value val None
     = OK (s ++ match PG_TYPES val with Some i => $"::" ++ i | None => [] end)
  /\ _to_sql_value val (Some []) = _to_sql_value val None
  /\ forall str_v type_v col_type,
       _to_sql_value (VOther str_v type_v) col_type
       = throw ValueSerializationError
               ($"value " ++ DQ ++ str_v ++ DQ ++ $" of type " ++ DQ ++ type_v ++ DQ
                 ++ $" cannot be serialized") NoSQL.
Proof.
  intros Hs Ht.
  destruct t as [|c t]; [congruence|].
  split; [reflexivity|]. split; [reflexivity|]. split; [reflexivity|].
  rewrite !(to_sql_value_supported _ _ _ Hs).
  split; [reflexivity|]. split; [reflexivity|]. split; [reflexivity|].
  intros str_v type_v col_type.
  destruct col_type as [[|c' t']|]; reflexivity.
Qed.

(** An instance: a date under the annotation [text], and without one. *)
Lemma to_sql_value_casts_witness :
  PG_VALUE_SERIALIZERS (VDate $"2017-06-01") = Some $"'2017-06-01'"
  /\ _to_sql_value (VDate $"2017-06-01") (Some $"text") = OK $"'2017-06-01'::text"
  /\ _to_sql_value (VDate $"2017-06-01") None = OK $"'2017-06-01'::DATE".
Proof.
  split; [reflexivity|].
  pose proof (to_sql_value_casts (VDate $"2017-06-01") $"'2017-06-01'" $"text"
                                  eq_refl ltac:(discriminate)) as H.
  destruct H as (_ & _ & _ & H1 & H2 & _).
  split; [exact H1 | exact H2].
Defined.

Lemma collect_length {A} (l : list (result A)) (xs : list A) :
  collect l = OK xs -> length xs = length l.
Proof.
  revert xs. induction l as [|r l IH]; intros xs; simpl.
  - intros [= <-]. reflexivity.
  - destruct r as [x|e]; simpl; [|discriminate].
    destruct (collect l) as [xs'|e]; simpl; [|discriminate].
    intros [= <-]. simpl. f_equal. now apply IH.
Qed.

(** The serialized values of a row under a non-empty list of column
    types: one per column. *)
Definition row_values (vals : list scalar) (col_types : list (option text))
  : result (list text) :=
  collect (map (fun vc => _to_sql_value (fst vc) (snd vc)) (zip vals col_types)).

Lemma row_to_sql_values_zip (vals : list scalar) (col_types : list (option text)) :
  col_types <> [] ->
  (length col_types <= length vals)%nat ->
  _row_to_sql_values (RowSeq vals) col_types
  = (ss <- row_values vals col_types ;; OK ($"(" ++ Py.join $"," ss ++ $")")).
Proof.
  intros Hne Hlen. unfold _row_to_sql_values, row_values. simpl row_len. simpl row_iter.
  destruct col_types as [|ct cts]; [congruence|].
  replace (length vals <? length (ct :: cts))%nat with false
    by (symmetry; apply Nat.ltb_ge; exact Hlen).
  reflexivity.
Qed.

Lemma row_values_truncate (vals : list scalar) (col_types : list (option text)) :
  row_values vals col_types = row_values (firstn (length col_types) vals) col_types.
Proof.
  unfold row_values, zip. now rewrite (combine_firstn_r vals col_types) at 1.
Qed.

Lemma row_to_sql_values_truncate (vals : list scalar) (col_types : list (option text)) :
  col_types <> [] ->
  _row_to_sql_values (RowSeq vals) col_types
  = _row_to_sql_values (RowSeq (firstn (length col_types) vals)) col_types.
Proof.
  intros Hne.
  destruct (Nat.le_gt_cases (length col_types) (length vals)) as [Hle|Hgt].
  - rewrite !row_to_sql_values_zip; auto.
    + now rewrite row_values_truncate.
    + rewrite length_firstn. lia.
  - rewrite firstn_all2 by lia. reflexivity.
Qed.

Lemma gen_values_rows_ext (rows rows' : list (list scalar)) (cols : list text)
      (alias : option text) (select_all_from : bool) :
  (rows = [] <-> rows' = []) ->
  map (fun r => _row_to_sql_values (RowSeq r) (map col_type_of cols)) rows
  = map (fun r => _row_to_sql_values (RowSeq r) (map col_type_of cols)) rows' ->
  _gen_values (map RowSeq rows) (Some cols) alias select_all_from
  = _gen_values (map RowSeq rows') (Some cols) alias select_all_from.
Proof.
  intros Hnil Hmap. unfold _gen_values.
  destruct rows as [|r rows], rows' as [|r' rows'];
    try (exfalso; destruct Hnil as [H1 H2];
         ((now discriminate H1) || (now discriminate H2))).
  - reflexivity.
  - cbn [map] in *. cbn [bind].
    rewrite <- !(map_map RowSeq (fun r => _row_to_sql_values r (map col_type_of cols))) in Hmap.
    cbn [map] in Hmap.
    change (map (fun r0 : row => _row_to_sql_values r0 (map col_type_of cols))
                (RowSeq r :: map RowSeq rows))
      with (_row_to_sql_values (RowSeq r) (map col_type_of cols)
            :: map (fun r0 : row => _row_to_sql_values r0 (map col_type_of cols))
                   (map RowSeq rows)).
    rewrite Hmap. reflexivity.
Qed.

(** C9. With column specs given, a positional row longer than the column
    list is serialized as its first [len(cols)] values: the extra values
    are dropped from the emitted tuple without being looked at (so they
    raise no error, whatever they are), the tuple has one serialized value
    per column, and only a row shorter than the column list is padded with
    [null]. *)
Theorem extra_row_values_dropped (vals extra : list scalar) (cols : list text)
        (rows : list (list scalar)) (alias : option text) (select_all_from : bool) :
  cols <> [] ->
  length vals = length cols ->
  _row_to_sql_values (RowSeq (vals ++ extra)) (map col_type_of cols)
  = _row_to_sql_values (RowSeq vals) (map col_type_of cols)
  /\ _gen_values (map RowSeq ((vals ++ extra) :: rows)) (Some cols) alias select_all_from
     = _gen_values (map RowSeq (vals :: rows)) (Some cols) alias select_all_from
  /\ (forall s, _row_to_sql_values (RowSeq (vals ++ extra)) (map col_type_of cols) = OK s ->
      exists ss, length ss = length cols /\ s = $"(" ++ Py.join $"," ss ++ $")"
                 /\ row_values vals (map col_type_of cols) = OK ss)
  /\ (forall short,
         (length short < length cols)%nat ->
         _row_to_sql_values (RowSeq short) (map col_type_of cols)
         = _row_to_sql_values
             (RowSeq (short ++ repeat VNone (length cols - length short)))
             (map col_type_of cols)).
Proof.
  intros Hne Hlen.
  assert (Hct : map col_type_of cols <> []) by (destruct cols; [congruence | discriminate]).
  assert (Htr : _row_to_sql_values (RowSeq (vals ++ extra)) (map col_type_of cols)
                = _row_to_sql_values (RowSeq vals) (map col_type_of cols)).
  { rewrite (row_to_sql_values_truncate (vals ++ extra) _ Hct).
    rewrite length_map, <- Hlen, firstn_app, Nat.sub_diag, firstn_all.
    simpl. now rewrite app_nil_r. }
  split; [exact Htr|]. split; [|split].
  - apply gen_values_rows_ext; [split; discriminate|].
    cbn [map]. now rewrite Htr.
  - intros s. rewrite Htr, row_to_sql_values_zip; [|exact Hct|rewrite length_map; lia].
    destruct (row_values vals (map col_type_of cols)) as [ss|e] eqn:E; [|discriminate].
    simpl. intros [= <-]. exists ss. split; [|split; reflexivity].
    apply collect_length in E.
    rewrite E, length_map. unfold zip. rewrite length_combine, length_map. lia.
  - intros short Hshort. unfold _row_to_sql_values. simpl row_len. simpl row_iter.
    rewrite length_map.
    destruct cols as [|c cols]; [congruence|].
    replace (length short <? length (c :: cols))%nat with true
      by (symmetry; apply Nat.ltb_lt; exact Hshort).
    rewrite length_app, repeat_length.
    replace (length short + (length (c :: cols) - length short)
             <? length (c :: cols))%nat with false
      by (symmetry; apply Nat.ltb_ge; lia).
    reflexivity.
Qed.

(** An instance: a third value, which could not be serialized, is dropped
    under two columns. *)
Lemma extra_row_values_dropped_witness :
  _gen_values [RowSeq [VInt 1; VStr $"x"; VOther $"<object>" $"<class 'object'>"]]
              (Some [$"a::int"; $"b"]) None false
  = OK $"VALUES (1::int,'x')".
Proof.
  destruct (extra_row_values_dropped
              [VInt 1; VStr $"x"] [VOther $"<object>" $"<class 'object'>"]
              [$"a::int"; $"b"] [] None false
              ltac:(discriminate) eq_refl) as (_ & H & _).
  etransitivity; [exact H|]. reflexivity.
Defined.

(** ** Python slices on in-range arguments *)

Lemma len_nonneg {A} (s : list A) : 0 <= Py.len s.
Proof. unfold Py.len. lia. Qed.

Lemma len_app {A} (x y : list A) : Py.len (x ++ y) = Py.len x + Py.len y.
Proof. unfold Py.len. rewrite length_app. lia. Qed.

Lemma slice_to_firstn {A} (s : list A) (b : Z) :
  0 <= b -> Py.slice_to s b = firstn (Z.to_nat b) s.
Proof.
  intros Hb. unfold Py.slice_to, Py.norm, Py.len.
  destruct (b <? 0) eqn:E; [lia|].
  destruct (Z.le_gt_cases b (Z.of_nat (length s))).
  - now rewrite Z.min_l.
  - rewrite Z.min_r by lia. rewrite Nat2Z.id.
    rewrite !firstn_all2; auto; lia.
Qed.

Lemma slice_from_skipn {A} (s : list A) (a : Z) :
  0 <= a -> Py.slice_from s a = skipn (Z.to_nat a) s.
Proof.
  intros Ha. unfold Py.slice_from, Py.norm, Py.len.
  destruct (a <? 0) eqn:E; [lia|].
  destruct (Z.le_gt_cases a (Z.of_nat (length s))).
  - now rewrite Z.min_l.
  - rewrite Z.min_r by lia. rewrite Nat2Z.id.
    rewrite !skipn_all2; auto; lia.
Qed.

Lemma slice_firstn_skipn {A} (s : list A) (a b : Z) :
  0 <= a -> 0 <= b ->
  Py.slice s a b = firstn (Z.to_nat (b - a)) (skipn (Z.to_nat a) s).
Proof.
  intros Ha Hb. unfold Py.slice, Py.norm, Py.len.
  destruct (a <? 0) eqn:Ea; [lia|]. destruct (b <? 0) eqn:Eb; [lia|].
  set (n := length s).
  destruct (Z.le_gt_cases a (Z.of_nat n)) as [Han|Han].
  - rewrite (Z.min_l a) by lia.
    destruct (Z.le_gt_cases b (Z.of_nat n)) as [Hbn|Hbn].
    + now rewrite Z.min_l by lia.
    + rewrite Z.min_r by lia.
      rewrite !firstn_all2; auto; rewrite length_skipn; fold n; lia.
  - rewrite (Z.min_r a) by lia. rewrite Nat2Z.id.
    rewrite !skipn_all2 by (fold n; lia). now rewrite !firstn_nil.
Qed.

Lemma slice_app_middle {A} (x y z : list A) :
  Py.slice (x ++ y ++ z) (Py.len x) (Py.len x + Py.len y) = y.
Proof.
  rewrite slice_firstn_skipn by (pose proof (len_nonneg x); pose proof (len_nonneg y); lia).
  unfold Py.len. rewrite Nat2Z.id.
  replace (Z.to_nat (Z.of_nat (length x) + Z.of_nat (length y) - Z.of_nat (length x)))
    with (length y) by lia.
  rewrite skipn_app, skipn_all, Nat.sub_diag. simpl.
  rewrite firstn_app, firstn_all, Nat.sub_diag. simpl. apply app_nil_r.
Qed.

Lemma slice_prefix_form {A} (s : list A) (a b : Z) :
  0 <= a -> exists k, Py.slice s a b = firstn k (skipn (Z.to_nat a) s).
Proof.
  intros Ha. unfold Py.slice.
  assert (Hn : Py.norm s a = Z.min a (Py.len s)).
  { unfold Py.norm. destruct (a <? 0) eqn:Ea; [lia | reflexivity]. }
  rewrite Hn. unfold Py.len.
  destruct (Z.le_gt_cases a (Z.of_nat (length s))).
  - rewrite Z.min_l by lia. eexists; reflexivity.
  - rewrite Z.min_r by lia. rewrite Nat2Z.id. exists O.
    rewrite skipn_all. now rewrite !firstn_nil.
Qed.

(** A slice of a slice is a slice of the text, at shifted offsets. *)
Lemma slice_slice {A} (s : list A) (a b x y : Z) :
  0 <= a -> 0 <= x <= y -> y <= Py.len (Py.slice s a b) ->
  Py.slice (Py.slice s a b) x y = Py.slice s (a + x) (a + y).
Proof.
  intros Ha Hxy Hy.
  destruct (slice_prefix_form s a b Ha) as [k Hk]. rewrite Hk in *.
  rewrite !slice_firstn_skipn by lia.
  unfold Py.len in Hy. rewrite length_firstn, length_skipn in Hy.
  rewrite skipn_firstn_comm, firstn_firstn, skipn_skipn.
  replace (Z.to_nat x + Z.to_nat a)%nat with (Z.to_nat (a + x)) by lia.
  replace (a + y - (a + x)) with (y - x) by lia.
  f_equal. lia.
Qed.

(** ** Splitting into statements *)

Lemma split_char_nonempty (c : ascii) (s : text) : Py.split_char c s <> [].
Proof.
  destruct s as [|x s]; simpl; [discriminate|].
  destruct (Ascii.eqb x c); [discriminate|].
  destruct (Py.split_char c s); discriminate.
Qed.

Lemma join_split_char (c : ascii) (s : text) :
  Py.join [c] (Py.split_char c s) = s.
Proof.
  induction s as [|x s IH]; [reflexivity|].
  simpl. destruct (Ascii.eqb x c) eqn:E.
  - apply Ascii.eqb_eq in E. subst x.
    pose proof (split_char_nonempty c s) as Hne.
    destruct (Py.split_char c s) as [|p ps] eqn:Es; [congruence|].
    simpl in *. now rewrite IH.
  - pose proof (split_char_nonempty c s) as Hne.
    destruct (Py.split_char c s) as [|p ps] eqn:Es; [congruence|].
    rewrite <- IH. destruct ps; reflexivity.
Qed.

Lemma sum_len_app (l1 l2 : list text) :
  Py.sum_len (l1 ++ l2) = Py.sum_len l1 + Py.sum_len l2.
Proof.
  induction l1 as [|p l1 IH]; simpl; [reflexivity|]. rewrite IH. lia.
Qed.

Lemma join_cons (sep p : text) (l : list text) :
  l <> [] -> Py.join sep (p :: l) = p ++ sep ++ Py.join sep l.
Proof. destruct l; [congruence | reflexivity]. Qed.

Lemma join_app (sep : text) (l1 l2 : list text) :
  l1 <> [] -> l2 <> [] ->
  Py.join sep (l1 ++ l2) = Py.join sep l1 ++ sep ++ Py.join sep l2.
Proof.
  intros H1 H2. induction l1 as [|p l1 IH]; [congruence|].
  destruct l1 as [|q l1].
  - simpl app. now rewrite join_cons.
  - change ((p :: q :: l1) ++ l2) with (p :: ((q :: l1) ++ l2)).
    rewrite join_cons by (simpl; discriminate).
    rewrite IH by discriminate.
    rewrite (join_cons sep p (q :: l1)) by discriminate.
    now rewrite <- !app_assoc.
Qed.

Lemma len_join (c : ascii) (l : list text) :
  l <> [] -> Py.len (Py.join [c] l) = Py.sum_len l + Py.len l - 1.
Proof.
  intros Hne. induction l as [|p l IH]; [congruence|].
  destruct l as [|q l].
  - simpl. unfold Py.len. simpl. lia.
  - rewrite join_cons by discriminate. rewrite !len_app, IH by discriminate.
    unfold Py.len. simpl Py.sum_len. simpl length. unfold Py.len. lia.
Qed.

(** Where a run of consecutive parts lies in the joined text. *)
Lemma join_middle (c : ascii) (p1 mid p3 : list text) :
  mid <> [] ->
  exists X Y,
    Py.join [c] (p1 ++ mid ++ p3) = X ++ Py.join [c] mid ++ Y
    /\ Py.len X = Py.sum_len p1 + Py.len p1.
Proof.
  intros Hmid.
  assert (Htail : exists Y, Py.join [c] (mid ++ p3) = Py.join [c] mid ++ Y).
  { destruct p3 as [|q p3].
    - exists []. now rewrite !app_nil_r.
    - eexists. rewrite join_app by (auto; discriminate). reflexivity. }
  destruct Htail as [Y HY].
  destruct p1 as [|q p1].
  - exists [], Y. simpl. split; [exact HY | reflexivity].
  - exists (Py.join [c] (q :: p1) ++ [c]), Y.
    rewrite join_app; [|discriminate|destruct mid; [congruence | discriminate]].
    rewrite HY. rewrite <- !app_assoc. split; [reflexivity|].
    rewrite len_app, len_join by discriminate. unfold Py.len. simpl. lia.
Qed.

Lemma statement_offsets (c : ascii) (sql : text) (i j : Z) :
  let parts := Py.split_char c sql in
  0 <= i -> i < j -> j <= Py.len parts ->
  let stmt_start := Py.sum_len (Py.slice_to parts i) + i in
  let stmt_end := stmt_start + Py.sum_len (Py.slice parts i j) + (j - i - 1) in
  Py.slice sql stmt_start stmt_end = Py.join [c] (Py.slice parts i j)
  /\ 0 <= stmt_start <= stmt_end /\ stmt_end <= Py.len sql.
Proof.
  intros parts Hi Hij Hj stmt_start stmt_end.
  pose proof (join_split_char c sql) as Hjoin. fold parts in Hjoin.
  assert (Hparts : parts = Py.slice_to parts i ++ Py.slice parts i j
                           ++ skipn (Z.to_nat j) parts).
  { rewrite slice_to_firstn, slice_firstn_skipn by lia.
    rewrite <- (firstn_skipn (Z.to_nat i) parts) at 1. f_equal.
    rewrite <- (firstn_skipn (Z.to_nat (j - i)) (skipn (Z.to_nat i) parts)) at 1.
    f_equal. rewrite skipn_skipn. f_equal. lia. }
  assert (Hlen1 : Py.len (Py.slice_to parts i) = i).
  { rewrite slice_to_firstn by lia. unfold Py.len in *. rewrite length_firstn. lia. }
  assert (Hlen2 : Py.len (Py.slice parts i j) = j - i).
  { rewrite slice_firstn_skipn by lia. unfold Py.len in *.
    rewrite length_firstn, length_skipn. lia. }
  assert (Hmid : Py.slice parts i j <> []).
  { intros E. rewrite E in Hlen2. unfold Py.len in Hlen2. simpl in Hlen2. lia. }
  destruct (join_middle c (Py.slice_to parts i) (Py.slice parts i j)
                        (skipn (Z.to_nat j) parts) Hmid)
    as (X & Y & HXY & HX).
  rewrite <- Hparts, Hjoin in HXY.
  assert (Hs : stmt_start = Py.len X) by (unfold stmt_start; lia).
  assert (He : stmt_end = Py.len X + Py.len (Py.join [c] (Py.slice parts i j))).
  { unfold stmt_end. rewrite len_join by exact Hmid. lia. }
  rewrite Hs, He. split.
  - rewrite HXY at 1. apply slice_app_middle.
  - rewrite HXY, !len_app.
    pose proof (len_nonneg X). pose proof (len_nonneg Y).
    pose proof (len_nonneg (Py.join [c] (Py.slice parts i j))). lia.
Qed.

(** The end index [statement] works with: an omitted end, and an end of 0,
    stand for [start + 1]. *)
Definition statement_end (start_ : Z) (end_ : option Z) : Z :=
  match end_ with
  | None | Some 0 => start_ + 1
  | Some e => e
  end.

Lemma view_single (self : Renderer) (v : View) :
  views self = [v] -> view self = OK v.
Proof. unfold view. now intros ->. Qed.

Lemma search_view_single (self : Renderer) (v : View) :
  views self = [v] ->
  search_view self = OK (at_slice (search_sql (rendering_sql self)) (bounds v)).
Proof. intros H. unfold search_view. now rewrite (view_single _ _ H). Qed.

Lemma sql_view_single (self : Renderer) (v : View) :
  views self = [v] ->
  sql_view self = OK (at_slice (raw_sql (rendering_sql self)) (bounds v)).
Proof. intros H. unfold sql_view. now rewrite (view_single _ _ H). Qed.

Lemma statement_unfold (cfg : config) (self : Renderer) (v : View)
      (start_ : Z) (end_ : option Z) :
  views self = [v] ->
  let sql := at_slice (search_sql (rendering_sql self)) (bounds v) in
  let parts := Py.split_char SEMI sql in
  let e := statement_end start_ end_ in
  statement cfg self start_ end_ =
  if negb (e >=? start_) then raise AssertionError else
  if negb (start_ >=? 0) then raise AssertionError else
  if (start_ >=? Py.len parts) || (e >? Py.len parts)
  then throw StatementParseError (statement_err_msg (Py.len parts) start_ e) (OneSQL sql)
  else
    let stmt_start := Py.sum_len (Py.slice_to parts start_) + start_ in
    let stmt_end := stmt_start + Py.sum_len (Py.slice parts start_ e)
                    + (e - start_ - 1) in
    OK (mkRenderer (rendering_sql self)
          [mkView (Slice (stmt_start + start (bounds v)) (stmt_end + start (bounds v)))
                  None (PatchParams_init None false None)]).
Proof.
  intros Hv sql parts e. unfold statement.
  rewrite (search_view_single _ _ Hv), (view_single _ _ Hv). cbn [bind].
  fold sql. fold parts.
  change (match end_ with
          | Some 0 | None => start_ + 1
          | Some (Z.pos _ as e0) | Some (Z.neg _ as e0) => e0
          end) with e.
  destruct (negb (e >=? start_)); [reflexivity|].
  destruct (negb (start_ >=? 0)); [reflexivity|].
  destruct ((start_ >=? Py.len parts) || (e >? Py.len parts)); reflexivity.
Qed.

(** The view [statement] returns for a range of statements that exist. *)
Lemma statement_in_range (cfg : config) (self : Renderer) (v : View)
      (i : Z) (j_opt : option Z) :
  views self = [v] ->
  let sql := at_slice (search_sql (rendering_sql self)) (bounds v) in
  let parts := Py.split_char SEMI sql in
  let j := statement_end i j_opt in
  0 <= i -> i < j -> j <= Py.len parts ->
  exists s e,
    statement cfg self i j_opt
    = OK (mkRenderer (rendering_sql self)
            [mkView (Slice (s + start (bounds v)) (e + start (bounds v)))
                    None (PatchParams_init None false None)])
    /\ Py.slice sql s e = Py.join [SEMI] (Py.slice parts i j)
    /\ 0 <= s <= e /\ e <= Py.len sql.
Proof.
  intros Hv sql parts j Hi Hlt Hj.
  pose proof (statement_unfold cfg self v i j_opt Hv) as Hst.
  cbv zeta in Hst. fold sql parts j in Hst.
  replace (negb (j >=? i)) with false in Hst by (symmetry; apply negb_false_iff; lia).
  replace (negb (i >=? 0)) with false in Hst by (symmetry; apply negb_false_iff; lia).
  replace ((i >=? Py.len parts) || (j >? Py.len parts)) with false in Hst
    by (symmetry; apply orb_false_iff; lia).
  destruct (statement_offsets SEMI sql i j Hi Hlt Hj) as (Hsl & Hse & He).
  eexists _, _. split; [exact Hst|]. fold parts in Hsl, Hse, He.
  split; [exact Hsl|]. split; [exact Hse | exact He].
Qed.


(** Without masking, and for a view that starts inside the text, the
    string read from the result is those statements joined by [;]. *)
Lemma statement_sql_view (cfg : config) (self : Renderer) (v : View)
      (i : Z) (j_opt : option Z) :
  views self = [v] ->
  search_sql (rendering_sql self) = raw_sql (rendering_sql self) ->
  0 <= start (bounds v) ->
  let parts := Py.split_char SEMI (at_slice (raw_sql (rendering_sql self)) (bounds v)) in
  0 <= i < statement_end i j_opt -> statement_end i j_opt <= Py.len parts ->
  (r <- statement cfg self i j_opt ;; sql_view r)
  = OK (Py.join [SEMI] (Py.slice parts i (statement_end i j_opt))).
Proof.
  intros Hv Hraw Ha parts Hij Hj.
  pose proof (statement_in_range cfg self v i j_opt Hv) as H.
  cbv zeta in H. rewrite Hraw in H. fold parts in H.
  destruct (H ltac:(lia) ltac:(lia) Hj) as (s & e & Hst & Hsl & Hse & He).
  rewrite Hst. cbn [bind]. unfold sql_view, view. cbn [views bind rendering_sql bounds].
  unfold at_slice at 1. cbn [start stop]. rewrite <- Hsl.
  unfold at_slice. rewrite slice_slice by (auto; lia).
  do 2 f_equal; lia.
Qed.






(** ** The ordering invariant of a [Renderer] *)

(** [views[i].bounds.stop <= views[i+1].bounds.start] for every [i]. *)
Definition ordered (vs : list View) : Prop :=
  forall i l r,
    nth_error vs i = Some l -> nth_error vs (S i) = Some r ->
    stop (bounds l) <= start (bounds r).

(** The invariant of a single view in the data model. *)
Definition well_formed (v : View) : Prop := start (bounds v) <= stop (bounds v).

Lemma has_nested_false_ordered (vs : list View) :
  has_nested vs = false <-> ordered vs.
Proof.
  induction vs as [|l vs IH].
  - split; [|reflexivity]. intros _ i l r H. destruct i; discriminate.
  - destruct vs as [|r vs].
    + split; [|reflexivity]. intros _ i l' r' _ H. destruct i as [|[|i]]; discriminate.
    + change (has_nested (l :: r :: vs))
        with ((start (bounds r) <? stop (bounds l)) || has_nested (r :: vs)).
      rewrite orb_false_iff, IH. split.
      * intros [H1 H2] i l' r' Hl Hr. destruct i as [|i].
        -- injection Hl as <-. injection Hr as <-. lia.
        -- exact (H2 i l' r' Hl Hr).
      * intros H. split.
        -- specialize (H O l r eq_refl eq_refl). lia.
        -- intros i l' r' Hl Hr. exact (H (S i) l' r' Hl Hr).
Qed.

Lemma has_nested_true_violation (vs : list View) :
  has_nested vs = true <->
  exists i l r, nth_error vs i = Some l /\ nth_error vs (S i) = Some r
                /\ start (bounds r) < stop (bounds l).
Proof.
  induction vs as [|l vs IH].
  - split; [discriminate|]. intros (i & l & r & H & _). destruct i; discriminate.
  - destruct vs as [|r vs].
    + split; [discriminate|]. intros (i & l' & r' & _ & H & _).
      destruct i as [|[|i]]; discriminate.
    + change (has_nested (l :: r :: vs))
        with ((start (bounds r) <? stop (bounds l)) || has_nested (r :: vs)).
      rewrite orb_true_iff, IH. split.
      * intros [H|(i & l' & r' & Hl & Hr & Hlt)].
        -- exists O, l, r. repeat split. lia.
        -- exists (S i), l', r'. auto.
      * intros (i & l' & r' & Hl & Hr & Hlt). destruct i as [|i].
        -- left. injection Hl as <-. injection Hr as <-. lia.
        -- right. exists i, l', r'. auto.
Qed.

(** With well-formed views, the condition on neighbours orders every pair:
    an earlier view starts no later and stops before the later one starts. *)
Lemma ordered_pairwise (vs : list View) :
  ordered vs -> Forall well_formed vs ->
  forall i j l r,
    (i < j)%nat -> nth_error vs i = Some l -> nth_error vs j = Some r ->
    start (bounds l) <= start (bounds r) /\ stop (bounds l) <= start (bounds r).
Proof.
  intros Hord Hwf i j l r Hij Hl Hr.
  assert (Hstop : stop (bounds l) <= start (bounds r)).
  { revert i l r Hij Hl Hr. induction j as [|j IH]; intros i l r Hij Hl Hr; [lia|].
    destruct (Nat.eq_dec i j) as [->|Hne].
    - exact (Hord j l r Hl Hr).
    - destruct (nth_error vs j) as [m|] eqn:Hm.
      + pose proof (IH i l m ltac:(lia) Hl eq_refl) as H1.
        pose proof (Hord j m r Hm Hr) as H2.
        assert (Hm' : well_formed m).
        { rewrite Forall_forall in Hwf. apply Hwf. eapply nth_error_In; eauto. }
        unfold well_formed in Hm'. lia.
      + apply nth_error_None in Hm.
        assert (nth_error vs (S j) <> None) by congruence.
        apply nth_error_Some in H. lia. }
  split; [|exact Hstop].
  assert (Hl' : well_formed l).
  { rewrite Forall_forall in Hwf. apply Hwf. eapply nth_error_In; eauto. }
  unfold well_formed in Hl'. lia.
Qed.

Lemma Renderer_init_views (cfg : config) (sql : sql_arg) (view : view_arg)
      (r : Renderer) :
  Renderer_init cfg sql view = OK r -> has_nested (views r) = false.
Proof.
  unfold Renderer_init.
  destruct (to_RenderSQL cfg sql) as [rsql|e]; cbn [bind]; [|discriminate].
  match goal with |- context [has_nested ?vs] => destruct (has_nested vs) eqn:E end.
  - discriminate.
  - intros [= <-]. exact E.
Qed.

Lemma Renderer_init_ordered (cfg : config) (sql : sql_arg) (view : view_arg)
      (r : Renderer) :
  Renderer_init cfg sql view = OK r -> ordered (views r).
Proof.
  intros H. apply has_nested_false_ordered. eapply Renderer_init_views; eauto.
Qed.

(** Going through a sequence of calls that ended well. *)
Ltac bind_ok H :=
  repeat match type of H with
         | bind ?x _ = OK _ =>
             let E := fresh "E" in
             destruct x eqn:E; cbn [bind] in H; [|discriminate H]
         | throw _ _ _ = OK _ => discriminate H
         | raise _ = OK _ => discriminate H
         | (if ?b then _ else _) = OK _ =>
             let E := fresh "E" in destruct b eqn:E
         | match ?x with _ => _ end = OK _ =>
             let E := fresh "E" in destruct x eqn:E
         end.

Ltac by_init H :=
  bind_ok H; try discriminate H;
  try (eapply Renderer_init_ordered; exact H).

Lemma Renderer_patch_ordered (cfg : config) (self : Renderer)
      (selector : option (text -> result Renderer))
      (rows : option (list row)) (cols : option (list text))
      (side_effect : option side_effect_call) (r : Renderer) :
  ordered (views self) ->
  Renderer_patch cfg self selector rows cols side_effect = OK r ->
  ordered (views r).
Proof.
  intros Hself H. unfold Renderer_patch in H.
  destruct side_effect as [[n| |rows' cols']|].
  - by_init H.
  - bind_ok H; try discriminate H. now injection H as <-.
  - destruct (_ || _) in H; [discriminate H|]. by_init H.
  - by_init H.
Qed.

Lemma call_method_ordered (cfg : config) (m : RenderMethod) (r r' : Renderer) :
  ordered (views r) -> call_method cfg m r = OK r' -> ordered (views r').
Proof.
  intros Hr H. destruct m; cbn [call_method] in H.
  - unfold getitem in H. by_init H.
  - unfold statement in H. by_init H.
  - unfold body in H. by_init H.
  - unfold cte in H. by_init H.
  - unfold insert_into in H. by_init H.
  - unfold subquery in H. by_init H.
  - unfold table in H. by_init H.
  - unfold create_table_as in H. by_init H.
  - eapply Renderer_patch_ordered; eauto.
Qed.

Lemma play_ordered (cfg : config) (chain : list RenderMethod) (r r' : Renderer) :
  ordered (views r) -> play cfg chain r = OK r' -> ordered (views r').
Proof.
  revert r. induction chain as [|m chain IH]; intros r Hr H; simpl in H.
  - now injection H as <-.
  - destruct (call_method cfg m r) as [r1|e] eqn:E; cbn [bind] in H; [|discriminate].
    eapply IH; [|exact H]. eapply call_method_ordered; eauto.
Qed.

Lemma render_ordered (cfg : config) (chain : list RenderMethod) (sql : text)
      (r : Renderer) :
  render cfg chain sql = OK r -> ordered (views r).
Proof.
  unfold render. intros H.
  destruct (Renderer_init cfg (SqlStr sql) NoView) as [r0|e] eqn:E;
    cbn [bind] in H; [|discriminate].
  eapply play_ordered; [|exact H]. eapply Renderer_init_ordered; eauto.
Qed.

(** C3. Constructing a [Renderer] over a text with a list of views in
    which some view starts before the stop of the view on its left raises
    [NestedMatchError] at construction; a list without such a pair is
    accepted as it is. Hence the views of every constructed [Renderer]
    satisfy [views[i].bounds.stop <= views[i+1].bounds.start], and, the
    views being well formed, they are in ascending order of start and
    pairwise disjoint. Every operation that returns a [Renderer], and the
    replay of a whole chain, keeps the invariant. *)
Theorem renderer_views_ordered (cfg : config) (sql : sql_arg) (rsql : RenderSQL)
        (vs : list View) :
  to_RenderSQL cfg sql = OK rsql ->
  ((exists i l r, nth_error vs i = Some l /\ nth_error vs (S i) = Some r
                  /\ start (bounds r) < stop (bounds l)) ->
   Renderer_init cfg sql (ManyViews vs)
   = throw NestedMatchError $"Nested matches were found in your selection."
           (ManySQL (map (fun v => at_slice (raw_sql rsql) (bounds v)) vs)))
  /\ (ordered vs -> Renderer_init cfg sql (ManyViews vs) = OK (mkRenderer rsql vs))
  /\ (forall sql' view' r,
         Renderer_init cfg sql' view' = OK r ->
         ordered (views r)
         /\ (Forall well_formed (views r) ->
             forall i j l r',
               (i < j)%nat ->
               nth_error (views r) i = Some l -> nth_error (views r) j = Some r' ->
               start (bounds l) <= start (bounds r')
               /\ stop (bounds l) <= start (bounds r')))
  /\ (forall m r r',
         ordered (views r) -> call_method cfg m r = OK r' -> ordered (views r'))
  /\ (forall chain text r, render cfg chain text = OK r -> ordered (views r)).
Proof.
  intros Hsql. split; [|split; [|split; [|split]]].
  - intros Hv. apply has_nested_true_violation in Hv.
    unfold Renderer_init. rewrite Hsql. cbn [bind]. now rewrite Hv.
  - intros Hv. apply has_nested_false_ordered in Hv.
    unfold Renderer_init. rewrite Hsql. cbn [bind]. now rewrite Hv.
  - intros sql' view' r Hr.
    pose proof (Renderer_init_ordered _ _ _ _ Hr) as Ho.
    split; [exact Ho|]. intros Hwf. now apply ordered_pairwise.
  - intros m r r'. apply call_method_ordered.
  - intros chain text r. apply render_ordered.
Qed.

(** Instances: views [0:4] and [2:6] of a text are refused, views [0:2] and
    [2:6] are accepted. *)
Lemma renderer_views_ordered_witness :
  is_exc NestedMatchError
         (Renderer_init default_config (SqlStr $"abcdef")
                        (ManyViews [View_init (Slice 0 4) None None;
                                    View_init (Slice 2 6) None None]))
  /\ Renderer_init default_config (SqlStr $"abcdef")
                   (ManyViews [View_init (Slice 0 2) None None;
                               View_init (Slice 2 6) None None])
     = OK (mkRenderer (mkRenderSQL None $"abcdef" $"abcdef")
                      [View_init (Slice 0 2) None None;
                       View_init (Slice 2 6) None None]).
Proof.
  split.
  - destruct (renderer_views_ordered default_config (SqlStr $"abcdef")
                (mkRenderSQL None $"abcdef" $"abcdef")
                [View_init (Slice 0 4) None None; View_init (Slice 2 6) None None]
                eq_refl) as (H & _).
    unfold is_exc. do 2 eexists. apply H.
    exists O, (View_init (Slice 0 4) None None), (View_init (Slice 2 6) None None).
    repeat split.
  - destruct (renderer_views_ordered default_config (SqlStr $"abcdef")
                (mkRenderSQL None $"abcdef" $"abcdef")
                [View_init (Slice 0 2) None None; View_init (Slice 2 6) None None]
                eq_refl) as (_ & H & _).
    apply H. intros i l r Hl Hr.
    destruct i as [|[|i]]; simpl in Hl, Hr; try discriminate;
      try (destruct i; discriminate).
    injection Hl as <-. injection Hr as <-. simpl. lia.
Defined.

(** ** The matchers and multiple matches *)

(** The five regex-anchored matchers with their arguments. *)
Inductive matcher : Type :=
| Subquery (alias : text)
| Cte (alias : text)
| InsertInto (table : text)
| CreateTableAs (table : text)
| Table (table : text) (alias : option text).

Definition matcher_method (mt : matcher) : RenderMethod :=
  match mt with
  | Subquery a => M_subquery a
  | Cte a => M_cte a
  | InsertInto t => M_insert_into t
  | CreateTableAs t => M_create_table_as t
  | Table t a => M_table t a
  end.

Definition matcher_regex (mt : matcher) : Re.regex :=
  match mt with
  | Subquery a => subquery_regex a
  | Cte a => cte_regex a
  | InsertInto t => insert_into_regex t
  | CreateTableAs t => create_table_as_regex t
  | Table t a => table_regex t a
  end.

(** The view a matcher makes of one match. *)
Definition matcher_view (mt : matcher) (self : Renderer) (sql : text)
           (m : Re.rmatch) : result View :=
  match mt with
  | Subquery a => subquery_view self sql a m
  | Cte _ => cte_view self sql m
  | InsertInto _ => insert_into_view self sql m
  | CreateTableAs _ => create_table_as_view self sql m
  | Table t a => OK (table_view t a m)
  end.

(** The text the matcher hands to the [Renderer] it returns. *)
Definition matcher_sql (mt : matcher) (self : Renderer) (sql : text) : sql_arg :=
  match mt with
  | Table _ _ => SqlStr sql
  | _ => SqlRender (rendering_sql self)
  end.

Lemma collect_map_OK {A B} (f : A -> B) (l : list A) :
  collect (map (fun x => OK (f x)) l) = OK (map f l).
Proof.
  induction l as [|x l IH]; [reflexivity|]. simpl. now rewrite IH.
Qed.

(** The common shape of the five matchers on a renderer with one view. *)
Lemma matcher_unfold (cfg : config) (self : Renderer) (v : View) (mt : matcher) :
  views self = [v] ->
  let sql := at_slice (search_sql (rendering_sql self)) (bounds v) in
  call_method cfg (matcher_method mt) self =
  match Re.finditer (matcher_regex mt) sql with
  | [] => call_method cfg (matcher_method mt) self
  | ms =>
      vs <- collect (map (matcher_view mt self sql) ms) ;;
      Renderer_init cfg (matcher_sql mt self sql) (ManyViews vs)
  end.
Proof.
  intros Hv sql.
  destruct (Re.finditer (matcher_regex mt) sql) as [|m ms] eqn:E; [reflexivity|].
  destruct mt; cbn [matcher_method call_method matcher_regex matcher_view matcher_sql] in *.
  - unfold subquery. rewrite (search_view_single _ _ Hv). cbn [bind]. fold sql.
    now rewrite E.
  - unfold cte. rewrite (search_view_single _ _ Hv). cbn [bind]. fold sql.
    now rewrite E.
  - unfold insert_into. rewrite (search_view_single _ _ Hv). cbn [bind]. fold sql.
    now rewrite E.
  - unfold create_table_as. rewrite (search_view_single _ _ Hv). cbn [bind]. fold sql.
    now rewrite E.
  - unfold table. rewrite (search_view_single _ _ Hv). cbn [bind]. fold sql.
    rewrite E.
    change (map (fun m0 => matcher_view (Table table0 alias) self sql m0) (m :: ms))
      with (map (fun m0 => OK (table_view table0 alias m0)) (m :: ms)).
    rewrite (collect_map_OK (table_view table0 alias)). reflexivity.
Qed.

Lemma matcher_no_match (cfg : config) (self : Renderer) (v : View) (mt : matcher) :
  views self = [v] ->
  Re.finditer (matcher_regex mt)
              (at_slice (search_sql (rendering_sql self)) (bounds v)) = [] ->
  is_exc NoMatchError (call_method cfg (matcher_method mt) self).
Proof.
  intros Hv E.
  destruct mt; cbn [matcher_method call_method matcher_regex] in *;
    [unfold subquery|unfold cte|unfold insert_into|unfold create_table_as|unfold table];
    rewrite (search_view_single _ _ Hv); cbn [bind]; rewrite E;
    unfold is_exc, throw; eauto.
Qed.

Lemma collect_error {A} (l : list (result A)) (e : raised) :
  collect l = Error e -> In (Error e) l.
Proof.
  induction l as [|r l IH]; simpl; [discriminate|].
  destruct r as [x|e']; simpl.
  - destruct (collect l) as [xs|e'']; simpl; [discriminate|].
    intros [= <-]. right. now apply IH.
  - intros [= <-]. now left.
Qed.

Lemma find_enclosing_paren_error (sql : text) (idx : Z) (d : direction) (e : raised) :
  _find_enclosing_paren sql idx d = Error e -> exc e = InvalidSQLError.
Proof.
  unfold _find_enclosing_paren.
  destruct (paren_loop _ _ _ _ _); [discriminate|].
  unfold throw. now intros [= <-].
Qed.

Lemma RenderSQL_init_error (cfg : config) (s : text) (e : raised) :
  RenderSQL_init cfg s = Error e -> exc e = KeyError \/ exc e = AssertionError.
Proof.
  unfold RenderSQL_init. destruct (safe_mode cfg); [|discriminate].
  destruct (_strip_comments_and_string_literals s) as [t|e'] eqn:E; cbn [bind].
  - destruct (length t =? length s)%nat; cbn [bind]; [discriminate|].
    intros [= <-]. now right.
  - intros [= <-]. left. clear -E. unfold _strip_comments_and_string_literals in E.
    revert E. generalize (@nil ascii) at 1. generalize (@None text).
    intros prev stripped.
    funelim (strip_loop s prev stripped); clear Heqcall.
    + discriminate.
    + now intros [= <-].
    + destruct previous_split_token; intros Hr; [eapply H | eapply H0]; eauto.
    + destruct previous_split_token; discriminate.
Qed.

Lemma Renderer_init_error (cfg : config) (sql : sql_arg) (view : view_arg) (e : raised) :
  Renderer_init cfg sql view = Error e ->
  exc e = NestedMatchError \/ exc e = KeyError \/ exc e = AssertionError.
Proof.
  unfold Renderer_init.
  destruct (to_RenderSQL cfg sql) as [rsql|e'] eqn:E; cbn [bind].
  - match goal with |- context [has_nested ?vs] => destruct (has_nested vs) end;
      [|discriminate].
    unfold throw. intros [= <-]. now left.
  - intros [= <-]. right. destruct sql; simpl in E; [|discriminate].
    eapply RenderSQL_init_error; eauto.
Qed.

Lemma matcher_view_error (mt : matcher) (self : Renderer) (v : View) (sql : text)
      (m : Re.rmatch) (e : raised) :
  views self = [v] ->
  matcher_view mt self sql m = Error e ->
  exc e = InvalidSQLError \/ exc e = IndexError.
Proof.
  intros Hv.
  destruct mt; cbn [matcher_view];
    [unfold subquery_view|unfold cte_view|unfold insert_into_view
     |unfold create_table_as_view|discriminate];
    rewrite (view_single _ _ Hv).
  - destruct (_find_enclosing_paren _ _ _) eqn:E; cbn [bind]; [discriminate|].
    intros [= <-]. left. eapply find_enclosing_paren_error; eauto.
  - destruct (_find_enclosing_paren _ _ _) eqn:E; cbn [bind]; [discriminate|].
    intros [= <-]. left. eapply find_enclosing_paren_error; eauto.
  - destruct (Py.index sql (Re.span_end m - 1)) as [c|]; cbn [bind].
    + destruct (Ascii.eqb c LPAREN); cbn [bind]; [|discriminate].
      destruct (_find_enclosing_paren _ _ _) eqn:E; cbn [bind].
      * destruct (Py.strip _); discriminate.
      * intros [= <-]. left. eapply find_enclosing_paren_error; eauto.
    + intros [= <-]. now right.
  - discriminate.
Qed.

(** The operations that narrow the current selection. *)
Definition narrowing (op : RenderMethod) : Prop :=
  match op with
  | M_statement _ _ | M_body | M_cte _ | M_insert_into _ | M_subquery _
  | M_table _ _ | M_create_table_as _ => True
  | M_getitem _ | M_patch _ _ _ _ => False
  end.

Lemma view_multiple (r : Renderer) :
  length (views r) <> 1%nat ->
  view r = throw MultipleMatchError multiple_match_msg
                 (ManySQL (map (fun v => at_slice (raw_sql (rendering_sql r)) (bounds v))
                               (views r))).
Proof.
  unfold view. destruct (views r) as [|v [|w vs]]; simpl; intros H;
    [reflexivity | congruence | reflexivity].
Qed.

Lemma narrowing_multiple (cfg : config) (r : Renderer) (op : RenderMethod) :
  length (views r) <> 1%nat -> narrowing op ->
  is_exc MultipleMatchError (call_method cfg op r).
Proof.
  intros Hr Hop. pose proof (view_multiple r Hr) as Hv.
  unfold is_exc, throw in *.
  destruct op; simpl in Hop; try contradiction; cbn [call_method];
    [unfold statement|unfold body|unfold cte|unfold insert_into|unfold subquery
     |unfold table|unfold create_table_as];
    unfold search_view; rewrite Hv; cbn [bind]; eauto.
Qed.

(** C4. On a renderer with one view no matcher raises [MultipleMatchError]:
    when it finds several occurrences, each of which gives a view (its
    parentheses balance) and which are not nested, the matcher step returns
    a [Renderer] holding one view per occurrence, more than one. The error
    comes later, from the operation that needs exactly one view: reading
    the selection as a string, or a further narrowing operation chained
    on the multiple match. *)
Theorem multiple_matches_deferred (cfg : config) (self : Renderer) (v : View)
        (mt : matcher) :
  views self = [v] ->
  let sql := at_slice (search_sql (rendering_sql self)) (bounds v) in
  let ms := Re.finditer (matcher_regex mt) sql in
  ~ is_exc MultipleMatchError (call_method cfg (matcher_method mt) self)
  /\ forall vs rsql,
      (1 < length ms)%nat ->
      collect (map (matcher_view mt self sql) ms) = OK vs ->
      ordered vs ->
      to_RenderSQL cfg (matcher_sql mt self sql) = OK rsql ->
      call_method cfg (matcher_method mt) self = OK (mkRenderer rsql vs)
      /\ length vs = length ms
      /\ (1 < length vs)%nat
      /\ is_exc MultipleMatchError (sql_view (mkRenderer rsql vs))
      /\ (forall op, narrowing op ->
                     is_exc MultipleMatchError (call_method cfg op (mkRenderer rsql vs))).
Proof.
  intros Hv sql ms. split.
  - intros (msg & s & H).
    destruct ms as [|m ms'] eqn:Ems.
    + destruct (matcher_no_match cfg self v mt Hv Ems) as (msg' & s' & H').
      rewrite H in H'. discriminate.
    + rewrite (matcher_unfold cfg self v mt Hv) in H. fold sql ms in H.
      rewrite Ems in H.
      destruct (collect (map (matcher_view mt self sql) (m :: ms'))) as [vs|e] eqn:Ec;
        cbn [bind] in H.
      * apply Renderer_init_error in H. simpl in H.
        destruct H as [H|[H|H]]; discriminate.
      * injection H as ->. apply collect_error in Ec. apply in_map_iff in Ec.
        destruct Ec as (m' & Hm' & _).
        apply (matcher_view_error mt self v sql m' _ Hv) in Hm'. simpl in Hm'.
        destruct Hm'; discriminate.
  - intros vs rsql Hms Hc Ho Hsql.
    assert (Hlen : length vs = length ms).
    { apply collect_length in Hc. now rewrite length_map in Hc. }
    split; [|split; [exact Hlen|split; [lia|split]]].
    + rewrite (matcher_unfold cfg self v mt Hv). fold sql ms.
      destruct ms as [|m ms']; [simpl in Hms; lia|].
      rewrite Hc. cbn [bind]. unfold Renderer_init. rewrite Hsql. cbn [bind].
      apply has_nested_false_ordered in Ho. now rewrite Ho.
    + unfold sql_view. rewrite view_multiple by (simpl; lia).
      unfold is_exc, throw. cbn [bind]. eauto.
    + intros op Hop. apply narrowing_multiple; [simpl; lia | exact Hop].
Qed.

Definition two_ctes : text := $"WITH bb AS (SELECT * FROM a), bb AS (SELECT * FROM c)".

Definition two_ctes_renderer : Renderer :=
  mkRenderer (mkRenderSQL None two_ctes two_ctes)
             [View_init (Slice 0 (Py.len two_ctes)) None None].

Definition two_ctes_views : list View :=
  [mkView (Slice 12 27) (Some (Slice 12 27)) (PatchParams_init (Some $"pgmock") true None);
   mkView (Slice 37 52) (Some (Slice 37 52)) (PatchParams_init (Some $"pgmock") true None)].

(** An instance: the two CTEs named [bb]; the match succeeds with two
    views, reading it as one string fails, and the first of the two reads
    as the body of the first CTE. *)
Lemma multiple_matches_deferred_witness :
  call_method default_config (M_cte $"bb") two_ctes_renderer
  = OK (mkRenderer (rendering_sql two_ctes_renderer) two_ctes_views)
  /\ is_exc MultipleMatchError
            (sql_view (mkRenderer (rendering_sql two_ctes_renderer) two_ctes_views))
  /\ (r <- getitem default_config
             (mkRenderer (rendering_sql two_ctes_renderer) two_ctes_views) (Idx 0) ;;
      sql_view r) = OK $"SELECT * FROM a".
Proof.
  destruct (multiple_matches_deferred default_config two_ctes_renderer
              (View_init (Slice 0 (Py.len two_ctes)) None None) (Cte $"bb") eq_refl)
    as [_ H].
  assert (Ho : ordered two_ctes_views)
    by (apply has_nested_false_ordered; reflexivity).
  destruct (H two_ctes_views (rendering_sql two_ctes_renderer)
              ltac:(vm_compute; lia) ltac:(vm_compute; reflexivity) Ho eq_refl)
    as (H1 & _ & _ & H2 & _).
  split; [exact H1|]. split; [exact H2|]. vm_compute. reflexivity.
Defined.

(** ** Offsets and text of the views a matcher returns *)

Lemma Renderer_init_rendering_sql (cfg : config) (rsql : RenderSQL) (view : view_arg)
      (r : Renderer) :
  Renderer_init cfg (SqlRender rsql) view = OK r -> rendering_sql r = rsql.
Proof.
  unfold Renderer_init. cbn [to_RenderSQL bind].
  match goal with |- context [has_nested ?vs] => destruct (has_nested vs) end;
    [discriminate|]. now intros [= <-].
Qed.

(** [statement] and the matchers other than [table] keep the text of the
    renderer they are called on: the views of the result are offsets into
    the original text. *)
Lemma siblings_keep_rendering_sql (cfg : config) (self r : Renderer) (op : RenderMethod) :
  match op with
  | M_statement _ _ | M_body | M_getitem _ | M_cte _ | M_insert_into _
  | M_subquery _ | M_create_table_as _ => True
  | M_table _ _ | M_patch _ _ _ _ => False
  end ->
  call_method cfg op self = OK r ->
  rendering_sql r = rendering_sql self.
Proof.
  intros Hop H. destruct op; try contradiction; cbn [call_method] in H;
    [unfold getitem in H|unfold statement in H|unfold body in H|unfold cte in H
     |unfold insert_into in H|unfold subquery in H|unfold create_table_as in H];
    bind_ok H; try discriminate H;
    eapply Renderer_init_rendering_sql; exact H.
Qed.

(** What [table] returns instead: a renderer over the search text of the
    current view, with the spans of the matches as they are. *)
Lemma table_result (cfg : config) (self r : Renderer) (v : View)
      (t : text) (alias : option text) :
  views self = [v] ->
  call_method cfg (M_table t alias) self = OK r ->
  let sql := at_slice (search_sql (rendering_sql self)) (bounds v) in
  raw_sql (rendering_sql r) = sql
  /\ views r = map (table_view t alias) (Re.finditer (table_regex t alias) sql).
Proof.
  intros Hv H sql. cbn [call_method] in H. unfold table in H.
  rewrite (search_view_single _ _ Hv) in H. cbn [bind] in H. fold sql in H.
  destruct (Re.finditer (table_regex t alias) sql) as [|m ms]; [discriminate H|].
  unfold Renderer_init in H. cbn [to_RenderSQL] in H.
  destruct (RenderSQL_init cfg sql) as [rs|e] eqn:E; cbn [bind] in H; [|discriminate H].
  match type of H with context [has_nested ?vs] => destruct (has_nested vs) end;
    [discriminate H|].
  injection H as <-. cbn [rendering_sql views]. split; [|reflexivity].
  unfold RenderSQL_init in E.
  destruct (safe_mode cfg).
  - destruct (_strip_comments_and_string_literals sql); cbn [bind] in E; [|discriminate E].
    destruct (_ =? _)%nat; cbn [bind] in E; [|discriminate E]. now injection E as <-.
  - cbn [bind] in E. now injection E as <-.
Qed.

Definition two_statements : text := $"select * from a; select * from b".

(** C2 (the code departs from the claim). [table] does not return views
    with offsets into the original text: after [statement(1)] on
    [select * from a; select * from b] it returns the view [15:16], an
    offset into the statement, held by a renderer whose text is that
    statement alone; in the original text the table is at [31:32]. In safe
    mode the text of the renderer it returns is the masked text. The other
    matchers, as [subquery] here, return offsets into the original text and
    keep it, unmasked. *)
Theorem table_views_are_relative :
  (r <- render default_config [M_statement 1 None; M_table $"b" None] two_statements ;;
   OK (raw_sql (rendering_sql r), map bounds (views r)))
  = OK ($" select * from b", [Slice 15 16])
  /\ at_slice two_statements (Slice 15 16) = $";"
  /\ at_slice two_statements (Slice 31 32) = $"b"
  /\ (r <- render (Config true true) [M_table $"t1" None] $"select 'x' from t1" ;;
      OK (raw_sql (rendering_sql r)))
     = OK $"select ' ' from t1"
  /\ (r <- render (Config true true) [M_statement 1 None; M_subquery $"b"]
                  $"select 1; select * from (select 'x') b" ;;
      s <- sql_view r ;;
      OK (raw_sql (rendering_sql r), map bounds (views r), s))
     = OK ($"select 1; select * from (select 'x') b", [Slice 25 35], $"select 'x'").
Proof. repeat split; vm_compute; reflexivity. Qed.

(** ** The alias rewrite preserves the length of the text *)

(** The number of characters a pattern consumes, for the patterns that
    consume a fixed number. *)
Fixpoint width (r : Re.regex) : option nat :=
  match r with
  | Re.Eps | Re.WordB => Some O
  | Re.Chr _ => Some 1%nat
  | Re.Cat r1 r2 =>
      match width r1, width r2 with
      | Some a, Some b => Some (a + b)%nat
      | _, _ => None
      end
  | _ => None
  end.








(** ** The rewrite operation: offsets and lengths *)



























Definition t1_params : PatchParams := PatchParams_init (Some $"t1") false (Some $"t1").





(** ** The paren balancer away from the wrap-around *)

(** The number of [c] among the first [k] of [chars]. *)
Definition seen (c : ascii) (k : nat) (chars : text) : Z :=
  Z.of_nat (count_occ ascii_dec (firstn k chars) c).

Lemma seen_cons (c x : ascii) (k : nat) (chars : text) :
  seen c (S k) (x :: chars) = (if ascii_dec x c then 1 else 0) + seen c k chars.
Proof.
  unfold seen. cbn [firstn count_occ]. destruct (ascii_dec x c); lia.
Qed.

(** The loop stops at the first closing paren met with as many closing as
    opening parens before it (counting the [d] parens open at the start),
    and runs to the end when there is none. *)
Lemma paren_loop_spec (ps pe : ascii) (chars : text) :
  ps <> pe ->
  forall d i, 0 <= d ->
    match paren_loop ps pe chars d i with
    | Some j =>
        exists k, j = i + Z.of_nat k
                  /\ nth_error chars k = Some pe
                  /\ d + seen ps k chars = seen pe k chars
                  /\ forall k', (k' < k)%nat -> nth_error chars k' = Some pe ->
                                seen pe k' chars < d + seen ps k' chars
    | None =>
        forall k', nth_error chars k' = Some pe ->
                   seen pe k' chars < d + seen ps k' chars
    end.
Proof.
  intros Hne. induction chars as [|c chars IH]; intros d i Hd.
  - simpl. intros k' H. destruct k'; discriminate.
  - cbn [paren_loop].
    destruct (Ascii.eqb c ps) eqn:Eps.
    + apply Ascii.eqb_eq in Eps. subst c.
      specialize (IH (d + 1) (i + 1) ltac:(lia)).
      destruct (paren_loop ps pe chars (d + 1) (i + 1)) as [j|].
      * destruct IH as (k & Hj & Hk & Hb & Hm). exists (S k).
        rewrite !seen_cons.
        destruct (ascii_dec ps ps); [|congruence].
        destruct (ascii_dec ps pe); [congruence|].
        split; [lia|]. split; [exact Hk|]. split; [lia|].
        intros [|k'] Hlt Hn; [simpl in Hn; congruence|].
        rewrite !seen_cons.
        destruct (ascii_dec ps ps); [|congruence].
        destruct (ascii_dec ps pe); [congruence|].
        specialize (Hm k' ltac:(lia) Hn). lia.
      * intros [|k'] Hn; [simpl in Hn; congruence|].
        rewrite !seen_cons.
        destruct (ascii_dec ps ps); [|congruence].
        destruct (ascii_dec ps pe); [congruence|].
        specialize (IH k' Hn). lia.
    + apply Ascii.eqb_neq in Eps.
      destruct (Ascii.eqb c pe) eqn:Epe.
      * apply Ascii.eqb_eq in Epe. subst c.
        destruct (d =? 0) eqn:Ed; cbn [negb].
        -- apply Z.eqb_eq in Ed. subst d. exists O.
           split; [lia|]. split; [reflexivity|].
           split; [unfold seen; simpl; lia | intros k' Hlt; lia].
        -- apply Z.eqb_neq in Ed.
           specialize (IH (d - 1) (i + 1) ltac:(lia)).
           destruct (paren_loop ps pe chars (d - 1) (i + 1)) as [j|].
           ++ destruct IH as (k & Hj & Hk & Hb & Hm). exists (S k).
              rewrite !seen_cons.
              destruct (ascii_dec pe pe); [|congruence].
              destruct (ascii_dec pe ps); [congruence|].
              split; [lia|]. split; [exact Hk|]. split; [lia|].
              intros [|k'] Hlt Hn; [unfold seen; simpl; lia|].
              rewrite !seen_cons.
              destruct (ascii_dec pe pe); [|congruence].
              destruct (ascii_dec pe ps); [congruence|].
              specialize (Hm k' ltac:(lia) Hn). lia.
           ++ intros [|k'] Hn; [unfold seen; simpl; lia|].
              rewrite !seen_cons.
              destruct (ascii_dec pe pe); [|congruence].
              destruct (ascii_dec pe ps); [congruence|].
              specialize (IH k' Hn). lia.
      * apply Ascii.eqb_neq in Epe.
        specialize (IH d (i + 1) Hd).
        destruct (paren_loop ps pe chars d (i + 1)) as [j|].
        -- destruct IH as (k & Hj & Hk & Hb & Hm). exists (S k).
           rewrite !seen_cons.
           destruct (ascii_dec c ps); [congruence|].
           destruct (ascii_dec c pe); [congruence|].
           split; [lia|]. split; [exact Hk|]. split; [lia|].
           intros [|k'] Hlt Hn; [simpl in Hn; congruence|].
           rewrite !seen_cons.
           destruct (ascii_dec c ps); [congruence|].
           destruct (ascii_dec c pe); [congruence|].
           specialize (Hm k' ltac:(lia) Hn). lia.
        -- intros [|k'] Hn; [simpl in Hn; congruence|].
           rewrite !seen_cons.
           destruct (ascii_dec c ps); [congruence|].
           destruct (ascii_dec c pe); [congruence|].
           specialize (IH k' Hn). lia.
Qed.

(** Away from the start of the text the characters scanned are the ones
    one position past the index in the direction of the scan. *)
Lemma stride_in_range (sql : text) (paren_idx : Z) :
  (-1 <= paren_idx ->
   stride sql (paren_idx + dir_int Forward) Forward
   = skipn (Z.to_nat (paren_idx + 1)) sql)
  /\ (1 <= paren_idx <= Py.len sql ->
      stride sql (paren_idx + dir_int Backward) Backward
      = rev (firstn (Z.to_nat paren_idx) sql)).
Proof.
  split; intros H; simpl.
  - apply slice_from_skipn. lia.
  - unfold Py.slice_from_rev.
    destruct (paren_idx + -1 <? 0) eqn:E; [lia|]. rewrite E.
    rewrite Z.min_l by lia. do 2 f_equal. lia.
Qed.

(** Forward from an index at or after [-1], and backward from an index at
    or after 1, the paren balancer returns the index of the first paren of
    the opposite direction met at depth 0, and raises [InvalidSQLError]
    exactly when there is none. *)
Lemma find_enclosing_paren_forward (sql : text) (paren_idx : Z) :
  -1 <= paren_idx ->
  let chars := skipn (Z.to_nat (paren_idx + 1)) sql in
  match _find_enclosing_paren sql paren_idx Forward with
  | OK j =>
      exists k, j = paren_idx + 1 + Z.of_nat k
                /\ nth_error sql (Z.to_nat j) = Some RPAREN
                /\ seen LPAREN k chars = seen RPAREN k chars
                /\ forall k', (k' < k)%nat -> nth_error chars k' = Some RPAREN ->
                              seen RPAREN k' chars < seen LPAREN k' chars
  | Error e =>
      exc e = InvalidSQLError
      /\ forall k', nth_error chars k' = Some RPAREN ->
                    seen RPAREN k' chars < seen LPAREN k' chars
  end.
Proof.
  intros H chars. unfold _find_enclosing_paren.
  destruct (stride_in_range sql paren_idx) as [Hs _]. rewrite (Hs H). fold chars.
  pose proof (paren_loop_spec LPAREN RPAREN chars ltac:(discriminate) 0 0 ltac:(lia))
    as Hspec.
  destruct (paren_loop LPAREN RPAREN chars 0 0) as [i|].
  - destruct Hspec as (k & Hi & Hk & Hb & Hm). exists k.
    split; [simpl; lia|]. split; [|split; [lia|]].
    + unfold chars in Hk. rewrite nth_error_skipn in Hk.
      rewrite <- Hk. f_equal. simpl. lia.
    + intros k' Hlt Hn. specialize (Hm k' Hlt Hn). lia.
  - split; [reflexivity|]. intros k' Hn. specialize (Hspec k' Hn). lia.
Qed.

(** Backward from an index between 1 and the length of the text, the paren
    balancer returns the index of the first opening paren met at depth 0,
    which is never negative, and raises [InvalidSQLError] exactly when
    there is none. *)
Lemma find_enclosing_paren_backward (sql : text) (paren_idx : Z) :
  1 <= paren_idx <= Py.len sql ->
  let chars := rev (firstn (Z.to_nat paren_idx) sql) in
  match _find_enclosing_paren sql paren_idx Backward with
  | OK j =>
      exists k, j = paren_idx - 1 - Z.of_nat k
                /\ 0 <= j
                /\ nth_error sql (Z.to_nat j) = Some LPAREN
                /\ seen RPAREN k chars = seen LPAREN k chars
                /\ forall k', (k' < k)%nat -> nth_error chars k' = Some LPAREN ->
                              seen LPAREN k' chars < seen RPAREN k' chars
  | Error e =>
      exc e = InvalidSQLError
      /\ forall k', nth_error chars k' = Some LPAREN ->
                    seen LPAREN k' chars < seen RPAREN k' chars
  end.
Proof.
  intros H chars. unfold _find_enclosing_paren.
  destruct (stride_in_range sql paren_idx) as [_ Hs]. rewrite (Hs H). fold chars.
  pose proof (paren_loop_spec RPAREN LPAREN chars ltac:(discriminate) 0 0 ltac:(lia))
    as Hspec.
  destruct (paren_loop RPAREN LPAREN chars 0 0) as [i|].
  - destruct Hspec as (k & Hi & Hk & Hb & Hm). exists k.
    assert (Hlen : length chars = Z.to_nat paren_idx).
    { unfold chars. rewrite length_rev, length_firstn. unfold Py.len in H. lia. }
    assert (Hk' : (k < length chars)%nat) by (apply nth_error_Some; congruence).
    split; [simpl; lia|]. split; [simpl; lia|]. split; [|split; [lia|]].
    + unfold chars in Hk. rewrite nth_error_rev in Hk.
      rewrite length_firstn in Hk.
      replace (k <? Nat.min (Z.to_nat paren_idx) (length sql))%nat with true in Hk
        by (symmetry; apply Nat.ltb_lt; unfold Py.len in H; lia).
      rewrite nth_error_firstn in Hk.
      match type of Hk with
      | (if ?b then _ else _) = _ => destruct b; [|discriminate]
      end.
      rewrite <- Hk. f_equal. unfold Py.len in H. simpl. lia.
    + intros k' Hlt Hn. specialize (Hm k' Hlt Hn). lia.
  - split; [reflexivity|]. intros k' Hn. specialize (Hspec k' Hn). lia.
Qed.

(** * Further properties of the engine *)

(** ** [body] *)

Lemma slice_eta (p : slice) : Slice (start p) (stop p) = p.
Proof. now destruct p. Qed.

Lemma Renderer_init_single (cfg : config) (rsql : RenderSQL) (v : View) :
  Renderer_init cfg (SqlRender rsql) (OneView v) = OK (mkRenderer rsql [v]).
Proof. reflexivity. Qed.

(** On a renderer with one view, [body] fails with [NoMatchError] exactly
    when the view has no patch range; otherwise it selects the patch range
    of the original text, with the parameters of a fresh view (no alias),
    and taking the body again changes nothing. *)
Theorem body_selects_patch (cfg : config) (self : Renderer) (v : View) :
  views self = [v] ->
  (patch v = None -> is_exc NoMatchError (body cfg self))
  /\ (forall p,
         patch v = Some p ->
         let r := mkRenderer (rendering_sql self)
                             [mkView p (Some p) (PatchParams_init None false None)] in
         body cfg self = OK r
         /\ sql_view r = OK (at_slice (raw_sql (rendering_sql self)) p)
         /\ body cfg r = OK r).
Proof.
  intros Hv. unfold body. rewrite (view_single _ _ Hv). cbn [bind]. split.
  - intros ->. rewrite (sql_view_single _ _ Hv). cbn [bind].
    unfold is_exc, throw. eauto.
  - intros p ->. rewrite Renderer_init_single. unfold View_init.
    rewrite slice_eta. split; [reflexivity|]. split; [reflexivity|].
    unfold view. cbn [views bind patch]. rewrite Renderer_init_single.
    unfold View_init. rewrite slice_eta. reflexivity.
Qed.

(** An instance: the body of a view with patch range [2:4]. *)
Lemma body_selects_patch_witness :
  body default_config
       (mkRenderer (mkRenderSQL None $"abcdef" $"abcdef")
                   [mkView (Slice 0 6) (Some (Slice 2 4)) t1_params])
  = OK (mkRenderer (mkRenderSQL None $"abcdef" $"abcdef")
                   [mkView (Slice 2 4) (Some (Slice 2 4))
                           (PatchParams_init None false None)]).
Proof.
  destruct (body_selects_patch default_config
              (mkRenderer (mkRenderSQL None $"abcdef" $"abcdef")
                          [mkView (Slice 0 6) (Some (Slice 2 4)) t1_params])
              (mkView (Slice 0 6) (Some (Slice 2 4)) t1_params) eq_refl) as [_ H].
  destruct (H (Slice 2 4) eq_refl) as [H1 _]. exact H1.
Defined.

(** ** [__getitem__] *)







(** ** Rows given as dictionaries *)

Lemma length_list_set {A} (l : list A) (i : nat) (v : A) :
  length (list_set l i v) = length l.
Proof.
  revert i. induction l as [|x l IH]; intros [|i]; simpl; auto.
Qed.

Lemma nth_error_list_set {A} (l : list A) (i j : nat) (v : A) :
  (i < length l)%nat ->
  nth_error (list_set l i v) j = if (j =? i)%nat then Some v else nth_error l j.
Proof.
  revert i j. induction l as [|x l IH]; intros i j Hi; [simpl in Hi; lia|].
  destruct i as [|i], j as [|j]; simpl; auto. apply IH. simpl in Hi. lia.
Qed.

Lemma col_pos_from_bounds (cols : list text) (k : nat) (col : text) (j : nat) :
  col_pos_from cols k col = Some j -> (k <= j < k + length cols)%nat.
Proof.
  revert k. induction cols as [|c cols IH]; intros k; simpl; [discriminate|].
  destruct (col_pos_from cols (S k) col) as [j'|] eqn:E.
  - intros [= <-]. apply IH in E. lia.
  - destruct (list_eq_dec ascii_dec c col); [|discriminate]. intros [= <-]. lia.
Qed.

Lemma col_pos_from_nth (cols : list text) (k : nat) (col : text) (j : nat) :
  col_pos_from cols k col = Some j -> nth_error cols (j - k) = Some col.
Proof.
  revert k. induction cols as [|c cols IH]; intros k; simpl; [discriminate|].
  destruct (col_pos_from cols (S k) col) as [j'|] eqn:E.
  - intros [= <-]. pose proof (col_pos_from_bounds _ _ _ _ E).
    apply IH in E. replace (j' - k)%nat with (S (j' - S k)) by lia. exact E.
  - destruct (list_eq_dec ascii_dec c col) as [->|]; [|discriminate].
    intros [= <-]. now rewrite Nat.sub_diag.
Qed.

Lemma col_pos_from_none (cols : list text) (k : nat) (col : text) :
  col_pos_from cols k col = None <-> ~ In col cols.
Proof.
  revert k. induction cols as [|c cols IH]; intros k; simpl; [tauto|].
  destruct (col_pos_from cols (S k) col) as [j'|] eqn:E.
  - split; [discriminate|]. intros H. exfalso. apply H. right.
    destruct (in_dec (list_eq_dec ascii_dec) col cols) as [Hin|Hnin]; [exact Hin|].
    apply (IH (S k)) in Hnin. congruence.
  - apply IH in E. destruct (list_eq_dec ascii_dec c col) as [->|Hne].
    + split; [discriminate|]. intros H. exfalso. apply H. now left.
    + split; [|reflexivity]. intros _ [H|H]; [congruence | contradiction].
Qed.

(** In a list of distinct columns, [col_pos] is the position of the column. *)
Lemma col_pos_nodup (cols : list text) (i : nat) (c : text) :
  NoDup cols -> nth_error cols i = Some c -> col_pos cols c = Some i.
Proof.
  intros Hnd Hi. unfold col_pos.
  destruct (col_pos_from cols 0 c) as [j|] eqn:E.
  - apply col_pos_from_nth in E. rewrite Nat.sub_0_r in E. f_equal.
    rewrite NoDup_nth_error in Hnd. symmetry. apply Hnd; [|congruence].
    apply nth_error_Some. congruence.
  - apply col_pos_from_none in E. exfalso. apply E. eapply nth_error_In; eauto.
Qed.

(** The value a dictionary row holds for a key (the last one, should the
    key be listed twice). *)
Fixpoint dict_get (items : list (text * scalar)) (key : text) : option scalar :=
  match items with
  | [] => None
  | (k, v) :: items' =>
      match dict_get items' key with
      | Some x => Some x
      | None => if list_eq_dec ascii_dec k key then Some v else None
      end
  end.

Lemma fill_row_spec (cols : list text) :
  NoDup cols ->
  forall items list_row,
    length list_row = length cols ->
    match fill_row cols items list_row with
    | inl out =>
        length out = length cols
        /\ Forall (fun kv => In (fst kv) cols) items
        /\ forall i c, nth_error cols i = Some c ->
                       nth_error out i = match dict_get items c with
                                         | Some v => Some v
                                         | None => nth_error list_row i
                                         end
    | inr col => ~ In col cols /\ In col (map fst items)
    end.
Proof.
  intros Hnd. induction items as [|[k v] items IH]; intros list_row Hlen.
  - simpl. split; [exact Hlen|]. split; [constructor | reflexivity].
  - cbn [fill_row]. destruct (col_pos cols k) as [pos|] eqn:Ek.
    + pose proof (col_pos_from_bounds _ _ _ _ Ek) as Hb.
      pose proof (col_pos_from_nth _ _ _ _ Ek) as Hk. rewrite Nat.sub_0_r in Hk.
      specialize (IH (list_set list_row pos v)
                     ltac:(now rewrite length_list_set)).
      destruct (fill_row cols items (list_set list_row pos v)) as [out|col].
      * destruct IH as (Hl & Hin & Hget). split; [exact Hl|]. split.
        -- constructor; [|exact Hin]. simpl. eapply nth_error_In; eauto.
        -- intros i c Hc. rewrite (Hget i c Hc). cbn [dict_get].
           destruct (dict_get items c); [reflexivity|].
           rewrite nth_error_list_set by lia.
           destruct (list_eq_dec ascii_dec k c) as [->|Hne].
           ++ rewrite (col_pos_nodup _ _ _ Hnd Hc) in Ek. injection Ek as <-.
              now rewrite Nat.eqb_refl.
           ++ destruct (i =? pos)%nat eqn:E; [|reflexivity].
              apply Nat.eqb_eq in E. subst i. congruence.
      * destruct IH as [H1 H2]. split; [exact H1 | now right].
    + apply col_pos_from_none in Ek. split; [exact Ek | now left].
Qed.

Lemma nth_error_repeat_none (n i : nat) :
  nth_error (repeat VNone n) i = if (i <? n)%nat then Some VNone else None.
Proof.
  revert i. induction n as [|n IH]; intros [|i]; simpl; auto.
Qed.

(** [_convert_dict_rows_to_lists] over distinct columns: when every key of
    every row is a column, each row becomes a list with one value per
    column, the value the row holds for the column, or [None]; otherwise
    the conversion fails with [ColumnMismatchInPatchError], whose message
    names the first row with a key that is no column, and that key. *)
Theorem convert_dict_rows (cols : list text) :
  NoDup cols ->
  forall (dicts : list (list (text * scalar))) (row_num : nat),
    match convert_rows_from cols (map RowDict dicts) row_num with
    | OK out =>
        out = map (fun items =>
                     RowSeq (map (fun c => match dict_get items c with
                                           | Some v => v
                                           | None => VNone
                                           end) cols)) dicts
        /\ Forall (fun items => Forall (fun kv => In (fst kv) cols) items) dicts
    | Error e =>
        exists k items col,
          nth_error dicts k = Some items
          /\ Forall (fun items' => Forall (fun kv => In (fst kv) cols) items')
                    (firstn k dicts)
          /\ In col (map fst items) /\ ~ In col cols
          /\ e = Raised ColumnMismatchInPatchError
                        (throw_message (column_mismatch_msg (row_num + k) col cols) NoSQL)
                        NoSQL
    end.
Proof.
  intros Hnd. induction dicts as [|items dicts IH]; intros row_num.
  - simpl. split; [reflexivity | constructor].
  - cbn [map convert_rows_from].
    pose proof (fill_row_spec cols Hnd items (repeat VNone (length cols))
                              (repeat_length _ _)) as Hfill.
    destruct (fill_row cols items (repeat VNone (length cols))) as [out|col].
    + destruct Hfill as (Hl & Hin & Hget).
      specialize (IH (S row_num)).
      destruct (convert_rows_from cols (map RowDict dicts) (S row_num)) as [rest|e];
        cbn [bind].
      * destruct IH as [-> Hall]. split; [|constructor; assumption].
        cbn [map]. f_equal. f_equal.
        apply nth_error_ext. intros i. rewrite nth_error_map.
        destruct (nth_error cols i) as [c|] eqn:Ec.
        -- rewrite (Hget i c Ec). simpl.
           destruct (dict_get items c); [reflexivity|].
           rewrite nth_error_repeat_none.
           replace (i <? length cols)%nat with true; [reflexivity|].
           symmetry. apply Nat.ltb_lt. apply nth_error_Some. congruence.
        -- simpl. apply nth_error_None. apply nth_error_None in Ec. lia.
      * destruct IH as (k & items' & col & Hk & Hfirst & Hc1 & Hc2 & ->).
        exists (S k), items', col. split; [exact Hk|]. split.
        { cbn [firstn]. constructor; assumption. }
        split; [exact Hc1|]. split; [exact Hc2|].
        now replace (row_num + S k)%nat with (S row_num + k)%nat by lia.
    + destruct Hfill as [H1 H2]. exists O, items, col.
      split; [reflexivity|]. split; [constructor|]. split; [exact H2|].
      split; [exact H1|]. unfold throw. now rewrite Nat.add_0_r.
Qed.

(** An instance: two rows over three columns, as in the test suite. *)
Lemma convert_dict_rows_witness :
  _convert_dict_rows_to_lists
    [RowDict [($"c1", VInt 1)]; RowDict [($"c2", VStr $"1")]] [$"c1"; $"c2"; $"c3"]
  = OK [RowSeq [VInt 1; VNone; VNone]; RowSeq [VNone; VStr $"1"; VNone]].
Proof.
  assert (Hnd : NoDup [$"c1"; $"c2"; $"c3"]).
  { repeat constructor; simpl; intuition discriminate. }
  pose proof (convert_dict_rows [$"c1"; $"c2"; $"c3"] Hnd
                [[($"c1", VInt 1)]; [($"c2", VStr $"1")]] 0) as H.
  unfold _convert_dict_rows_to_lists.
  change [RowDict [($"c1", VInt 1)]; RowDict [($"c2", VStr $"1")]]
    with (map RowDict [[($"c1", VInt 1)]; [($"c2", VStr $"1")]]).
  destruct (convert_rows_from _ _ _) as [out|e].
  - destruct H as [-> _]. reflexivity.
  - destruct H as (k & items & col & Hk & _ & Hin & Hnin & _). exfalso.
    destruct k as [|[|k]]; simpl in Hk; try (destruct k; discriminate);
      injection Hk as <-; simpl in *; intuition (subst; eauto).
Defined.

(** ** The empty dataset *)

Lemma collect_map_ok {A B} (f : A -> result B) (g : A -> B) (l : list A) :
  (forall x, In x l -> f x = OK (g x)) -> collect (map f l) = OK (map g l).
Proof.
  induction l as [|x l IH]; intros H; [reflexivity|].
  simpl. rewrite (H x (or_introl eq_refl)). cbn [bind].
  rewrite IH by (intros y Hy; apply H; now right). reflexivity.
Qed.

Lemma combine_repeat_l {A B} (a : A) (l : list B) :
  combine (repeat a (length l)) l = map (fun b => (a, b)) l.
Proof. induction l as [|b l IH]; [reflexivity|]. simpl. now rewrite IH. Qed.

(** The all-null row: one [null] per column, with the cast of the column
    when it has one. *)
Definition null_row (cols : list text) : text :=
  $"(" ++ Py.join $"," (map (fun col => $"null" ++ cast_suffix VNone (col_type_of col)) cols)
       ++ $")".

Lemma row_to_sql_values_empty (cols : list text) :
  _row_to_sql_values (RowSeq []) (map col_type_of cols) = OK (null_row cols).
Proof.
  unfold _row_to_sql_values, null_row. cbn [row_len row_iter length].
  destruct cols as [|c cols]; [reflexivity|].
  cbn [map length Nat.eqb negb andb Nat.ltb Nat.leb app].
  rewrite Nat.sub_0_r. unfold zip.
  change (S (length (map col_type_of cols)))
    with (length (col_type_of c :: map col_type_of cols)).
  rewrite combine_repeat_l, map_map.
  rewrite (collect_map_ok _ (fun ct => $"null" ++ cast_suffix VNone ct))
    by (intros x _; apply to_sql_value_none).
  cbn [bind]. change (col_type_of c :: map col_type_of cols)
    with (map col_type_of (c :: cols)).
  now rewrite map_map.
Qed.

(** With no rows [_gen_values] never fails, whatever the columns: it emits
    one row of [null]s, one per column and cast to the type of the column
    when it has one, limited to 0 rows, under the alias and the
    [SELECT * FROM] it is asked for. *)
Theorem gen_values_empty (cols : option (list text)) (alias : option text)
        (select_all_from : bool) :
  let cols' := match cols with Some c => c | None => [] end in
  let values := $"VALUES " ++ null_row cols' ++ $" LIMIT 0" in
  let aliased :=
    match alias with
    | Some (c :: a) =>
        $"(" ++ values ++ $") AS " ++ (c :: a) ++ $"("
          ++ Py.join $"," (map (fun col => DQ ++ col_name_of col ++ DQ) cols') ++ $")"
    | _ => values
    end in
  _gen_values [] cols alias select_all_from
  = OK (if select_all_from then $"SELECT * FROM " ++ aliased else aliased).
Proof.
  intros cols' values aliased. unfold _gen_values. fold cols'. cbn [bind map collect].
  rewrite row_to_sql_values_empty. cbn [bind Py.join].
  subst aliased values. rewrite map_map.
  destruct alias as [[|c a]|], select_all_from; reflexivity.
Qed.

(** ** What cannot be patched *)

(** The views [statement] returns carry no patch range, so patching the
    selection of [statement], with any rows and columns, fails with
    [UnpatchableError]; so does patching a fresh renderer. *)
Theorem statement_is_unpatchable (cfg : config) (self r : Renderer) (v : View)
        (i : Z) (j : option Z) (rows : option (list row)) (cols : option (list text)) :
  views self = [v] ->
  statement cfg self i j = OK r ->
  is_exc UnpatchableError (Renderer_patch cfg r None rows cols None)
  /\ forall sql r0,
      Renderer_init cfg (SqlStr sql) NoView = OK r0 ->
      is_exc UnpatchableError (Renderer_patch cfg r0 None rows cols None).
Proof.
  intros Hv Hst.
  pose proof (statement_unfold cfg self v i j Hv) as Hu. cbv zeta in Hu.
  rewrite Hu in Hst. clear Hu.
  destruct (negb _) in Hst; [discriminate|].
  destruct (negb _) in Hst; [discriminate|].
  destruct (_ || _) in Hst; [discriminate|]. injection Hst as <-.
  split.
  - unfold Renderer_patch. cbn [bind views patch_loop].
    unfold patch_step, check_is_patchable. cbn [patch bind].
    unfold is_exc, throw. cbn [bind]. eauto.
  - intros sql r0 H0. unfold Renderer_init in H0.
    destruct (to_RenderSQL cfg (SqlStr sql)) as [rsql|]; cbn [bind has_nested] in H0;
      [|discriminate]. injection H0 as <-.
    unfold Renderer_patch. cbn [bind views patch_loop].
    unfold patch_step, check_is_patchable. cbn [patch bind View_init].
    unfold is_exc, throw. cbn [bind]. eauto.
Qed.

(** An instance: the test that patches the first statement of
    [create table t1]. *)
Lemma statement_is_unpatchable_witness :
  is_exc UnpatchableError
         (Renderer_patch default_config
            (mkRenderer (mkRenderSQL None $"create table t1" $"create table t1")
                        [mkView (Slice 0 15) None (PatchParams_init None false None)])
            None (Some []) (Some [$"c1"]) None).
Proof.
  destruct (statement_is_unpatchable default_config
              (mkRenderer (mkRenderSQL None $"create table t1" $"create table t1")
                          [View_init (Slice 0 15) None None])
              (mkRenderer (mkRenderSQL None $"create table t1" $"create table t1")
                          [mkView (Slice 0 15) None (PatchParams_init None false None)])
              (View_init (Slice 0 15) None None) 0 None (Some []) (Some [$"c1"])
              eq_refl eq_refl) as [H _].
  exact H.
Defined.

(** ** Side effects of a patch ([pgmock.mocker.SideEffect]) *)

(** [pgmock.data(rows, cols)] *)
Definition Data : Type := (option (list row) * option (list text))%type.

(** A [SideEffect] object: the list it was made from (each entry a [Data]
    or [None]) and the index of the next entry. *)
Record SideEffect : Type := mkSideEffect {
  iterable_idx : nat;
  side_effect : list (option Data)
}.

Definition SideEffect_init (side_effect : list (option Data)) : SideEffect :=
  mkSideEffect 0 side_effect.

(** [SideEffect.__call__]: the value returned or the exception raised, and
    the object after the call. *)
Definition SideEffect_call (self : SideEffect) : result (option Data) * SideEffect :=
  if (length (side_effect self) <=? iterable_idx self)%nat
  then (throw SideEffectExhaustedError
              (side_effect_exhausted_msg (length (side_effect self))) NoSQL,
        self)
  else
    let self' := mkSideEffect (iterable_idx self + 1) (side_effect self) in
    (match nth_error (side_effect self') (iterable_idx self' - 1) with
     | Some d => OK d
     | None => raise IndexError
     end, self').

(** The call of the side effect as [Renderer.patch] sees it. *)
Definition call_outcome (self : SideEffect) : side_effect_call :=
  match fst (SideEffect_call self) with
  | OK None => SE_none
  | OK (Some (rows, cols)) => SE_data rows cols
  | Error _ => SE_exhausted (length (side_effect self))
  end.

(** The side effect after [k] calls. *)
Fixpoint after_calls (k : nat) (self : SideEffect) : SideEffect :=
  match k with
  | O => self
  | S k' => snd (SideEffect_call (after_calls k' self))
  end.

Lemma after_calls_state (entries : list (option Data)) (k : nat) :
  after_calls k (SideEffect_init entries)
  = mkSideEffect (Nat.min k (length entries)) entries.
Proof.
  induction k as [|k IH]; [reflexivity|].
  cbn [after_calls]. rewrite IH. unfold SideEffect_call. cbn [side_effect iterable_idx].
  destruct (length entries <=? Nat.min k (length entries))%nat eqn:E; cbn [snd].
  - apply Nat.leb_le in E. f_equal. lia.
  - apply Nat.leb_gt in E. f_equal. lia.
Qed.

(** A patch made with a list of side effects uses one entry per rendering,
    in order: at rendering [k] (from 0) it behaves as a patch with the rows
    and columns of entry [k], does nothing when the entry is [None], and
    once the list is used up it fails with [SideEffectExhaustedError],
    whose message names the length of the list; the index does not move
    past the end. *)
Theorem side_effect_sequence (entries : list (option Data)) (k : nat)
        (cfg : config) (self : Renderer) (selector : option (text -> result Renderer)) :
  let se := after_calls k (SideEffect_init entries) in
  iterable_idx se = Nat.min k (length entries)
  /\ fst (SideEffect_call se)
     = match nth_error entries k with
       | Some d => OK d
       | None => throw SideEffectExhaustedError
                       ($"Side effect of length " ++ Py.str_int (Z.of_nat (length entries))
                         ++ $" has been exhausted") NoSQL
       end
  /\ Renderer_patch cfg self selector None None (Some (call_outcome se))
     = match nth_error entries k with
       | Some None => OK self
       | Some (Some (rows, cols)) => Renderer_patch cfg self selector rows cols None
       | None => throw SideEffectExhaustedError
                       ($"Side effect of length " ++ Py.str_int (Z.of_nat (length entries))
                         ++ $" has been exhausted") NoSQL
       end.
Proof.
  intros se. unfold se. rewrite after_calls_state. cbn [iterable_idx].
  split; [reflexivity|].
  unfold call_outcome, SideEffect_call. cbn [side_effect iterable_idx].
  destruct (nth_error entries k) as [d|] eqn:E.
  - assert (Hk : (k < length entries)%nat) by (apply nth_error_Some; congruence).
    replace (length entries <=? Nat.min k (length entries))%nat with false
      by (symmetry; apply Nat.leb_gt; lia).
    cbn [fst].
    replace (Nat.min k (length entries) + 1 - 1)%nat with k by lia.
    rewrite E. split; [reflexivity|].
    destruct d as [[rows cols]|]; [|reflexivity].
    unfold Renderer_patch. cbn [truthy_list orb]. destruct rows; reflexivity.
  - apply nth_error_None in E.
    replace (length entries <=? Nat.min k (length entries))%nat with true
      by (symmetry; apply Nat.leb_le; lia).
    cbn [fst]. split; reflexivity.
Qed.

(** ** Configuration values with a scoped override ([pgmock.config]) *)

(** A [_ContextableConfigValue]; [_old_value = None] is the sentinel
    [UNDEFINED_VALUE]. *)
Record ConfigValue (A : Type) : Type := mkConfigValue {
  value : A;
  _value_stack : list A;
  _old_value : option A
}.
Arguments mkConfigValue {A}.
Arguments value {A}.
Arguments _value_stack {A}.
Arguments _old_value {A}.

Definition ConfigValue_init {A} (initial_value : A) : ConfigValue A :=
  mkConfigValue initial_value [] None.

(** [__call__(new_value)] *)
Definition ConfigValue_call {A} (self : ConfigValue A) (new_value : A) : ConfigValue A :=
  mkConfigValue new_value (_value_stack self) (Some (value self)).

(** [__enter__]; [None] is the [TypeError] raised when the value is used
    as a context manager without being called. *)
Definition ConfigValue_enter {A} (self : ConfigValue A) : option (ConfigValue A) :=
  match _old_value self with
  | None => None
  | Some old => Some (mkConfigValue (value self) (_value_stack self ++ [old]) None)
  end.

(** [__exit__]; [None] is the [IndexError] of [pop] on an empty stack. *)
Definition ConfigValue_exit {A} (self : ConfigValue A) : option (ConfigValue A) :=
  match rev (_value_stack self) with
  | [] => None
  | top :: below => Some (mkConfigValue top (rev below) (_old_value self))
  end.

(** [with self(v1): with self(v2): ...] entered for every value of a list. *)
Fixpoint enter_all {A} (self : ConfigValue A) (vs : list A) : option (ConfigValue A) :=
  match vs with
  | [] => Some self
  | v :: vs' =>
      match ConfigValue_enter (ConfigValue_call self v) with
      | Some self' => enter_all self' vs'
      | None => None
      end
  end.

(** Leaving [n] of the blocks. *)
Fixpoint exit_n {A} (n : nat) (self : ConfigValue A) : option (ConfigValue A) :=
  match n with
  | O => Some self
  | S n' =>
      match exit_n n' self with
      | Some self' => ConfigValue_exit self'
      | None => None
      end
  end.

Lemma last_cons_default {A} (l : list A) (a d d' : A) :
  last (a :: l) d = last (a :: l) d'.
Proof.
  revert a. induction l as [|b l IH]; intros a; [reflexivity|].
  change (last (b :: l) d = last (b :: l) d'). apply IH.
Qed.

(** Nested scoped overrides: inside the blocks the value is the innermost
    one set, and leaving all the blocks restores the value and the stack
    from before the first; a value that was not called cannot be entered. *)
Theorem scoped_override_restores {A} (vs : list A) :
  forall self : ConfigValue A,
    ConfigValue_enter (mkConfigValue (value self) (_value_stack self) None) = None
    /\ exists inside,
        enter_all self vs = Some inside
        /\ value inside = last vs (value self)
        /\ exists after,
            exit_n (length vs) inside = Some after
            /\ value after = value self
            /\ _value_stack after = _value_stack self.
Proof.
  induction vs as [|v vs IH]; intros self.
  - split; [reflexivity|].
    exists self. repeat split. exists self. repeat split.
  - split; [reflexivity|].
    cbn [enter_all]. unfold ConfigValue_enter, ConfigValue_call. cbn [_old_value value _value_stack].
    destruct (IH (mkConfigValue v (_value_stack self ++ [value self]) None))
      as (_ & inside & Hin & Hval & after & Hex & Hv & Hs).
    exists inside. split; [exact Hin|]. split.
    + rewrite Hval. cbn [value].
      destruct vs as [|a vs]; [reflexivity|]. apply (last_cons_default vs a).
    + cbn [length exit_n]. rewrite Hex. unfold ConfigValue_exit.
      rewrite Hs. cbn [_value_stack]. rewrite rev_app_distr. cbn [rev app].
      eexists. split; [reflexivity|]. cbn [value _value_stack].
      split; [reflexivity | apply rev_involutive].
Qed.

(** ** Chaining renderables *)

(** The classes of renderable objects: the base class, and the selectors
    and the mockers, which both derive from it. *)
Inductive renderable_class : Type :=
| ClsRenderable
| ClsSelector
| ClsMocker.

(** A renderable object: its class and its chain of render methods. *)
Record Renderable : Type := mkRenderable {
  cls : renderable_class;
  _chain : list RenderMethod
}.

(** [isinstance(renderable, c)] *)
Definition isinstance (renderable : Renderable) (c : renderable_class) : bool :=
  match c, cls renderable with
  | ClsRenderable, _ => true
  | ClsSelector, ClsSelector => true
  | ClsMocker, ClsMocker => true
  | _, _ => false
  end.

Section Chaining.

(** [Renderable.__str__], used in the message of the chaining error: it
    prints the [repr] of every argument of the chain, among them objects
    printed with their address, so its text is taken as given. *)
Variable str : Renderable -> text.

(** [Renderable.chain]: the renderable after the call. *)
Definition Renderable_chain (self renderable : Renderable) : result Renderable :=
  if negb (isinstance renderable (cls self))
  then throw SelectorChainingError
             (DQ ++ str self ++ DQ ++ $" cannot be chained with " ++ DQ
                 ++ str renderable ++ DQ ++ $"; types are incompatible") NoSQL
  else OK (mkRenderable (cls self) (_chain self ++ _chain renderable)).

(** The loop of [chain] over [renderables[1:]]. *)
Fixpoint chain_loop (chained : Renderable) (renderables : list Renderable)
  : result Renderable :=
  match renderables with
  | [] => OK chained
  | renderable :: rest =>
      chained' <- Renderable_chain chained renderable ;;
      chain_loop chained' rest
  end.

(** [chain] called with [first] and then [others], for the at least one
    renderable it needs; the first one is copied, so no argument is
    changed. *)
Definition chain (first : Renderable) (others : list Renderable) : result Renderable :=
  chain_loop first others.

Lemma play_app (cfg : config) (c1 c2 : list RenderMethod) (r : Renderer) :
  play cfg (c1 ++ c2) r = (r' <- play cfg c1 r ;; play cfg c2 r').
Proof.
  revert r. induction c1 as [|m c1 IH]; intros r; [reflexivity|].
  cbn [app play]. destruct (call_method cfg m r) as [r1|e]; cbn [bind]; [apply IH | reflexivity].
Qed.

(** Playing the chains of several renderables one after the other. *)
Fixpoint play_all (cfg : config) (renderables : list Renderable) (r : Renderer)
  : result Renderer :=
  match renderables with
  | [] => OK r
  | renderable :: rest =>
      r' <- play cfg (_chain renderable) r ;; play_all cfg rest r'
  end.

Lemma chain_loop_ok (chained : Renderable) (others : list Renderable) :
  forallb (fun o => isinstance o (cls chained)) others = true ->
  chain_loop chained others
  = OK (mkRenderable (cls chained) (_chain chained ++ concat (map _chain others))).
Proof.
  revert chained. induction others as [|o others IH]; intros chained H.
  - simpl. rewrite app_nil_r. now destruct chained.
  - cbn [forallb] in H. apply andb_true_iff in H. destruct H as [Ho Hrest].
    cbn [chain_loop]. unfold Renderable_chain. rewrite Ho. cbn [negb bind].
    rewrite IH by exact Hrest. cbn [cls _chain map concat]. now rewrite app_assoc.
Qed.

Lemma chain_loop_error (chained : Renderable) (others : list Renderable) :
  forallb (fun o => isinstance o (cls chained)) others = false ->
  is_exc SelectorChainingError (chain_loop chained others).
Proof.
  revert chained. induction others as [|o others IH]; intros chained H; [discriminate|].
  cbn [forallb] in H. cbn [chain_loop]. unfold Renderable_chain.
  destruct (isinstance o (cls chained)) eqn:Ho; cbn [negb bind andb] in *.
  - apply IH. cbn [cls]. exact H.
  - unfold is_exc, throw. cbn [bind]. eauto.
Qed.

Lemma play_all_concat (cfg : config) (others : list Renderable) (r : Renderer) :
  play cfg (concat (map _chain others)) r = play_all cfg others r.
Proof.
  revert r. induction others as [|o others IH]; intros r; [reflexivity|].
  cbn [map concat play_all]. rewrite play_app.
  destruct (play cfg (_chain o) r); cbn [bind]; [apply IH | reflexivity].
Qed.

(** [chain] succeeds exactly when every other renderable is an instance of
    the class of the first (any renderable after a plain [Renderable], a
    selector after a selector, a mocker after a mocker) and fails with
    [SelectorChainingError] otherwise; the chain of the result is the
    concatenation of the chains, so that rendering it is rendering the
    first renderable and then playing the others, in order, on what it
    gives. *)
Theorem chain_composes (first : Renderable) (others : list Renderable) :
  (forallb (fun o => isinstance o (cls first)) others = false /\
   is_exc SelectorChainingError (chain first others))
  \/ (forallb (fun o => isinstance o (cls first)) others = true /\
      exists chained,
        chain first others = OK chained
        /\ cls chained = cls first
        /\ _chain chained = _chain first ++ concat (map _chain others)
        /\ forall cfg sql,
            render cfg (_chain chained) sql
            = (r <- render cfg (_chain first) sql ;; play_all cfg others r)).
Proof.
  destruct (forallb (fun o => isinstance o (cls first)) others) eqn:E.
  - right. split; [reflexivity|]. eexists. split; [now apply chain_loop_ok|].
    cbn [cls _chain]. split; [reflexivity|]. split; [reflexivity|].
    intros cfg sql. unfold render.
    destruct (Renderer_init cfg (SqlStr sql) NoView) as [r0|e]; cbn [bind]; [|reflexivity].
    rewrite play_app. destruct (play cfg (_chain first) r0); cbn [bind]; [|reflexivity].
    apply play_all_concat.
  - left. split; [reflexivity|]. now apply chain_loop_error.
Qed.

End Chaining.

(** ** What the masking pass keeps *)

(** A character of the masked text: the character of the input, or a
    blank in its place. *)
Definition masked (c c' : ascii) : Prop := c' = c \/ c' = " "%char.

Lemma masked_refl (l : text) : Forall2 masked l l.
Proof. induction l; constructor; [now left | assumption]. Qed.

Lemma masked_spaces (l : text) : Forall2 masked l (Py.spaces (length l)).
Proof. induction l; constructor; [now right | assumption]. Qed.

(** The loop appends to the output a masked copy of what it is given. *)
Lemma strip_loop_masks (sql : text) (prev : option text) (stripped out : text) :
  strip_loop sql prev stripped = OK out ->
  exists tail, out = stripped ++ tail /\ Forall2 masked sql tail.
Proof.
  funelim (strip_loop sql prev stripped); clear Heqcall.
  - intros [= <-]. exists []. split; [now rewrite app_nil_r | constructor].
  - discriminate.
  - destruct (re_split1_sound toks (c :: s) _ _ _ Hsplit) as [_ Heq].
    rewrite Heq. destruct previous_split_token; intros Hr.
    + apply H in Hr; [|exact []]. destruct Hr as (tail & -> & Ht).
      exists (Py.spaces (length prefix) ++ this_split_token ++ tail).
      split; [now rewrite <- !app_assoc|].
      apply Forall2_app; [apply masked_spaces|].
      apply Forall2_app; [apply masked_refl | exact Ht].
    + apply H0 in Hr. destruct Hr as (tail & -> & Ht).
      exists (prefix ++ this_split_token ++ tail).
      split; [now rewrite <- !app_assoc|].
      apply Forall2_app; [apply masked_refl|].
      apply Forall2_app; [apply masked_refl | exact Ht].
  - destruct previous_split_token; intros [= <-]; eexists; (split; [reflexivity|]).
    + apply (masked_spaces (c :: s)).
    + apply masked_refl.
Qed.

(** On a text without double quote the masking pass returns a text that
    differs from the input only by blanks: every character is kept or
    replaced by one space, so that no character moves. *)
Theorem masking_only_blanks (s : text) :
  ~ In DQUOTE s ->
  exists out,
    _strip_comments_and_string_literals s = OK out
    /\ Forall2 masked s out.
Proof.
  intros H. destruct (strip_loop_total s None [] H) as [out Hout]; [discriminate|].
  exists out. split; [exact Hout|].
  destruct (strip_loop_masks _ _ _ _ Hout) as (tail & -> & Ht). exact Ht.
Qed.

(** An instance: a string literal and a line comment. *)
Lemma masking_only_blanks_witness :
  exists out,
    _strip_comments_and_string_literals $"select 'a' -- c" = OK out
    /\ Forall2 masked $"select 'a' -- c" out.
Proof.
  apply masking_only_blanks. cbv. intuition discriminate.
Defined.

(** A text in which none of the tokens occurs is not split. *)
Lemma match_token_none (toks : list text) (s : text) :
  (forall t, In t toks -> Py.contains t s = false) -> match_token toks s = None.
Proof.
  induction toks as [|t toks IH]; intros H; [reflexivity|].
  cbn [match_token].
  assert (Ht : Py.is_prefix t s = false).
  { specialize (H t (or_introl eq_refl)).
    destruct s; cbn [Py.contains] in H; apply orb_false_iff in H; apply H. }
  rewrite Ht. apply IH. intros t' Hin. apply H. now right.
Qed.

Lemma re_split1_none (toks : list text) (s : text) :
  (forall t, In t toks -> Py.contains t s = false) -> re_split1 toks s = None.
Proof.
  induction s as [|c s IH]; intros H.
  - cbn [re_split1]. now rewrite match_token_none.
  - cbn [re_split1]. rewrite match_token_none by exact H.
    rewrite IH; [reflexivity|].
    intros t Hin. specialize (H t Hin). cbn [Py.contains] in H.
    apply orb_false_iff in H. apply H.
Qed.

Lemma strip_loop_plain (sql : text) (prev : option text) (stripped : text) :
  prev = None ->
  (forall t, In t [$"--"; $"'"; DQ; $"/*"] -> Py.contains t sql = false) ->
  strip_loop sql prev stripped = OK (stripped ++ sql).
Proof.
  funelim (strip_loop sql prev stripped); clear Heqcall; intros -> Hplain.
  - now rewrite app_nil_r.
  - discriminate.
  - assert (Hn : re_split1 toks (c :: s) = None).
    { apply re_split1_none. intros t Hin. apply Hplain.
      pose proof Htoks as Ht. cbn [_SPLITTER_REGEXES] in Ht.
      injection Ht as Ht. rewrite <- Ht in Hin. exact Hin. }
    congruence.
  - reflexivity.
Qed.

(** A text with no [--], no quote of either kind and no [/*] is its own
    masked text: with safe mode on or off, the text searched by the
    selectors is then the text given. *)
Theorem masking_keeps_plain_text (cfg : config) (s : text) :
  Py.contains $"--" s = false ->
  Py.contains $"'" s = false ->
  Py.contains DQ s = false ->
  Py.contains $"/*" s = false ->
  _strip_comments_and_string_literals s = OK s
  /\ exists r, RenderSQL_init cfg s = OK r /\ raw_sql r = s /\ search_sql r = s.
Proof.
  intros H1 H2 H3 H4.
  assert (Hs : _strip_comments_and_string_literals s = OK s).
  { unfold _strip_comments_and_string_literals.
    rewrite strip_loop_plain; [reflexivity | reflexivity |].
    intros t [<-|[<-|[<-|[<-|[]]]]]; assumption. }
  split; [exact Hs|].
  unfold RenderSQL_init. destruct (safe_mode cfg).
  - rewrite Hs. cbn [bind]. rewrite Nat.eqb_refl. cbn [bind].
    eexists. split; [reflexivity|]. cbn [raw_sql search_sql].
    split; [reflexivity|]. now destruct (truthy (Some s)).
  - cbn [bind]. eexists. split; [reflexivity|]. split; reflexivity.
Qed.

(** An instance: a single dash opens no comment. *)
Lemma masking_keeps_plain_text_witness :
  _strip_comments_and_string_literals $"select a - b from t" = OK $"select a - b from t".
Proof.
  apply (masking_keeps_plain_text default_config $"select a - b from t"); reflexivity.
Defined.

(** ** The end of a statement *)

Lemma find_char_spec (c : ascii) (s : text) :
  match Py.find_char c s with
  | Some k => nth_error s k = Some c
              /\ forall j, (j < k)%nat -> nth_error s j <> Some c
  | None => forall j, nth_error s j <> Some c
  end.
Proof.
  induction s as [|x s IH]; cbn [Py.find_char].
  - intros [|j]; discriminate.
  - destruct (Ascii.eqb x c) eqn:E.
    + apply Ascii.eqb_eq in E. subst x. split; [reflexivity|]. intros j Hj. lia.
    + apply Ascii.eqb_neq in E.
      destruct (Py.find_char c s) as [k|]; cbn [option_map].
      * destruct IH as [Hk Hm]. split; [exact Hk|].
        intros [|j] Hj; cbn [nth_error]; [congruence | apply Hm; lia].
      * intros [|j]; cbn [nth_error]; [congruence | apply IH].
Qed.

(** From a start inside the text, [_get_end_statement] returns the index of
    the first semicolon at or after the start, or the length of the text
    when there is none: the result is between the start and the length, a
    result before the end of the text is the index of a semicolon, and
    there is no semicolon between the start and the result. *)
Theorem get_end_statement_spec (sql : text) (start_ : Z) :
  0 <= start_ <= Py.len sql ->
  let e := _get_end_statement sql start_ in
  start_ <= e <= Py.len sql
  /\ (e < Py.len sql -> nth_error sql (Z.to_nat e) = Some SEMI)
  /\ forall i, start_ <= i < e -> nth_error sql (Z.to_nat i) <> Some SEMI.
Proof.
  intros H e. subst e. unfold _get_end_statement, Py.find, Py.norm.
  destruct (start_ <? 0) eqn:E; [lia|]. rewrite Z.min_l by lia.
  pose proof (find_char_spec SEMI (skipn (Z.to_nat start_) sql)) as Hf.
  destruct (Py.find_char SEMI (skipn (Z.to_nat start_) sql)) as [k|].
  - destruct Hf as [Hk Hm].
    replace (start_ + Z.of_nat k =? -1) with false by (symmetry; apply Z.eqb_neq; lia).
    rewrite nth_error_skipn in Hk.
    assert (Hlt : (Z.to_nat start_ + k < length sql)%nat)
      by (apply nth_error_Some; congruence).
    unfold Py.len in *. split; [lia|]. split.
    + intros _. rewrite <- Hk. f_equal. lia.
    + intros i Hi.
      assert (Hj : (Z.to_nat (i - start_) < k)%nat) by lia.
      specialize (Hm _ Hj).
      rewrite nth_error_skipn in Hm.
      replace (Z.to_nat start_ + Z.to_nat (i - start_))%nat with (Z.to_nat i) in Hm by lia.
      exact Hm.
  - rewrite Z.eqb_refl. split; [lia|]. split; [lia|].
    intros i Hi. specialize (Hf (Z.to_nat (i - start_))).
    rewrite nth_error_skipn in Hf.
    replace (Z.to_nat start_ + Z.to_nat (i - start_))%nat with (Z.to_nat i) in Hf by lia.
    exact Hf.
Qed.

Definition insert_then_select : text := $"insert into a select 1; select 2".

(** An instance: the end of the statement that starts at index 14. *)
Lemma get_end_statement_spec_witness :
  14 <= _get_end_statement insert_then_select 14 <= Py.len insert_then_select
  /\ nth_error insert_then_select (Z.to_nat (_get_end_statement insert_then_select 14))
     = Some SEMI.
Proof.
  destruct (get_end_statement_spec insert_then_select 14 ltac:(cbn; lia))
    as (H1 & H2 & _).
  split; [exact H1 | apply H2; reflexivity].
Defined.

(** ** Rendering without a selector, and with selectors only *)

Lemma slice_whole {A} (s : list A) : Py.slice s 0 (Py.len s) = s.
Proof.
  rewrite slice_firstn_skipn by (unfold Py.len; lia).
  cbn [Z.to_nat skipn]. rewrite firstn_all2; [reflexivity|]. unfold Py.len. lia.
Qed.

(** [pgmock.sql] called with no selector returns the query as it is, with
    safe mode off and, with safe mode on, for every query the masking pass
    accepts: the masked text is used for searching only and is never
    rendered. *)
Theorem sql_without_selector (cfg : config) (query : text) (safe : option bool) :
  match safe with Some b => b | None => safe_mode cfg end = false
  \/ ~ In DQUOTE query ->
  sql cfg query [] safe = OK query.
Proof.
  intros H. unfold sql, render, Renderer_init, to_RenderSQL, RenderSQL_init.
  cbn [safe_mode].
  destruct (match safe with Some b => b | None => safe_mode cfg end) eqn:E.
  - destruct H as [H|H]; [discriminate|].
    destruct (strip_total_without_dquote query H) as (out & -> & Hlen).
    cbn [bind]. rewrite Hlen, Nat.eqb_refl. cbn [bind raw_sql has_nested play].
    unfold sql_view, view. cbn [views bind rendering_sql raw_sql bounds View_init].
    unfold at_slice. cbn [start stop]. now rewrite slice_whole.
  - cbn [bind raw_sql has_nested play].
    unfold sql_view, view. cbn [views bind rendering_sql raw_sql bounds View_init].
    unfold at_slice. cbn [start stop]. now rewrite slice_whole.
Qed.

(** An instance: in safe mode, a query with a literal and a comment. *)
Lemma sql_without_selector_witness :
  sql default_config $"select 'a' from t -- all" [] (Some true)
  = OK $"select 'a' from t -- all".
Proof.
  apply sql_without_selector. right. cbv. intuition discriminate.
Defined.

(** The render methods that select: all but [table] and [patch]. *)
Definition selects_only (op : RenderMethod) : bool :=
  match op with
  | M_table _ _ | M_patch _ _ _ _ => false
  | _ => true
  end.

Lemma play_keeps_rendering_sql (cfg : config) (chain : list RenderMethod)
      (r r' : Renderer) :
  forallb selects_only chain = true ->
  play cfg chain r = OK r' ->
  rendering_sql r' = rendering_sql r.
Proof.
  revert r. induction chain as [|op chain IH]; intros r Hc H.
  - cbn [play] in H. now injection H as <-.
  - cbn [forallb] in Hc. apply andb_true_iff in Hc. destruct Hc as [Hop Hc].
    cbn [play] in H.
    destruct (call_method cfg op r) as [r1|e] eqn:E; cbn [bind] in H; [|discriminate].
    rewrite (IH r1 Hc H).
    apply (siblings_keep_rendering_sql cfg r r1 op); [|exact E].
    destruct op; try exact I; discriminate.
Qed.

Lemma RenderSQL_init_raw_sql (cfg : config) (s : text) (rs : RenderSQL) :
  RenderSQL_init cfg s = OK rs -> raw_sql rs = s.
Proof.
  unfold RenderSQL_init. destruct (safe_mode cfg).
  - destruct (_strip_comments_and_string_literals s); cbn [bind]; [|discriminate].
    destruct (_ =? _)%nat; cbn [bind]; [|discriminate]. now intros [= <-].
  - cbn [bind]. now intros [= <-].
Qed.

(** Rendering a chain of selectors other than [table] never changes the
    text: whatever the chain, the text of the renderer it returns is the
    query given, and what a renderer with one view renders is the slice
    of that query at the bounds of the view, unmasked also in safe
    mode. *)
Theorem selectors_keep_text (cfg : config) (chain : list RenderMethod)
        (sql : text) (r : Renderer) :
  forallb selects_only chain = true ->
  render cfg chain sql = OK r ->
  raw_sql (rendering_sql r) = sql
  /\ forall v, views r = [v] ->
               sql_view r = OK (Py.slice sql (start (bounds v)) (stop (bounds v))).
Proof.
  intros Hc H. unfold render, Renderer_init in H. cbn [to_RenderSQL] in H.
  destruct (RenderSQL_init cfg sql) as [rs|e] eqn:E; cbn [bind has_nested] in H;
    [|discriminate].
  apply RenderSQL_init_raw_sql in E.
  apply (play_keeps_rendering_sql cfg chain _ r Hc) in H. cbn [rendering_sql] in H.
  assert (Hraw : raw_sql (rendering_sql r) = sql) by (rewrite H; exact E).
  split; [exact Hraw|].
  intros v Hv. rewrite (sql_view_single r v Hv). now rewrite Hraw.
Qed.

(** An instance: a subquery of the second statement, in safe mode. *)
Lemma selectors_keep_text_witness :
  exists r,
    render (Config true true) [M_statement 1 None; M_subquery $"b"]
           $"select 1; select * from (select 'x') b" = OK r
    /\ raw_sql (rendering_sql r) = $"select 1; select * from (select 'x') b".
Proof.
  destruct (render (Config true true) [M_statement 1 None; M_subquery $"b"]
                   $"select 1; select * from (select 'x') b") as [r|e] eqn:E.
  - exists r. split; [reflexivity|].
    apply (selectors_keep_text (Config true true)
             [M_statement 1 None; M_subquery $"b"] _ r eq_refl E).
  - vm_compute in E. discriminate.
Defined.

(** ** The paren balancer away from the start of the text *)

(** An instance: forward from the first paren of [(a(b)c)]. *)
Lemma find_enclosing_paren_forward_witness :
  exists k,
    _find_enclosing_paren $"(a(b)c)" 0 Forward = OK (0 + 1 + Z.of_nat k)
    /\ nth_error $"(a(b)c)" (Z.to_nat (0 + 1 + Z.of_nat k)) = Some RPAREN.
Proof.
  pose proof (find_enclosing_paren_forward $"(a(b)c)" 0 ltac:(lia)) as H.
  cbv zeta in H.
  destruct (_find_enclosing_paren $"(a(b)c)" 0 Forward) as [j|e] eqn:E.
  - destruct H as (k & Hj & Hn & _). exists k. subst j. split; [reflexivity | exact Hn].
  - vm_compute in E. discriminate.
Defined.

(** An instance: backward from the last paren of [(a(b)c)]. *)
Lemma find_enclosing_paren_backward_witness :
  exists k,
    _find_enclosing_paren $"(a(b)c)" 6 Backward = OK (6 - 1 - Z.of_nat k)
    /\ nth_error $"(a(b)c)" (Z.to_nat (6 - 1 - Z.of_nat k)) = Some LPAREN.
Proof.
  pose proof (find_enclosing_paren_backward $"(a(b)c)" 6 ltac:(cbn; lia)) as H.
  cbv zeta in H.
  destruct (_find_enclosing_paren $"(a(b)c)" 6 Backward) as [j|e] eqn:E.
  - destruct H as (k & Hj & _ & Hn & _). exists k. subst j. split; [reflexivity | exact Hn].
  - vm_compute in E. discriminate.
Defined.

(** ** Masking a masked text *)

(** One turn of the loop of the masking pass. *)
Lemma strip_loop_turn (sql : text) (prev : option text) (stripped : text) :
  strip_loop sql prev stripped
  = match sql with
    | [] => OK stripped
    | _ :: _ =>
        match _SPLITTER_REGEXES prev with
        | None => raise KeyError
        | Some toks =>
            match re_split1 toks sql, prev with
            | None, Some _ => OK (stripped ++ Py.spaces (length sql))
            | None, None => OK (stripped ++ sql)
            | Some (prefix, tok, rest), Some _ =>
                strip_loop rest None (stripped ++ Py.spaces (length prefix) ++ tok)
            | Some (prefix, tok, rest), None =>
                strip_loop rest (Some tok) (stripped ++ prefix ++ tok)
            end
        end
    end.
Proof.
  funelim (strip_loop sql prev stripped); clear Heqcall;
    try match goal with H : _SPLITTER_REGEXES _ = _ |- _ => rewrite H end;
    try match goal with H : re_split1 _ _ = _ |- _ => rewrite H end;
    reflexivity.
Qed.

Lemma is_prefix_intro (p r : text) : Py.is_prefix p (p ++ r) = true.
Proof.
  unfold Py.is_prefix. apply andb_true_iff. split.
  - apply Nat.leb_le. rewrite length_app. lia.
  - rewrite firstn_app, Nat.sub_diag, firstn_all. cbn [firstn]. rewrite app_nil_r.
    now destruct (list_eq_dec ascii_dec p p).
Qed.

(** A token no longer than [x] is a prefix of [x ++ y] when it is one of
    [x]. *)
Lemma is_prefix_short (t x y : text) :
  (length t <= length x)%nat -> Py.is_prefix t (x ++ y) = Py.is_prefix t x.
Proof.
  intros H. unfold Py.is_prefix. rewrite firstn_app.
  replace (length t - length x)%nat with O by lia. cbn [firstn]. rewrite app_nil_r.
  f_equal. rewrite length_app.
  destruct (length t <=? length x)%nat eqn:E; [apply Nat.leb_le; lia|].
  apply Nat.leb_gt in E. lia.
Qed.

Lemma match_token_none_iff (toks : list text) (s : text) :
  match_token toks s = None <-> forall t, In t toks -> Py.is_prefix t s = false.
Proof.
  induction toks as [|t toks IH]; cbn [match_token].
  - split; [intros _ t [] | reflexivity].
  - destruct (Py.is_prefix t s) eqn:E.
    + split; [discriminate|]. intros H. specialize (H t (or_introl eq_refl)). congruence.
    + rewrite IH. split.
      * intros H t' [<-|Hin]; [exact E | now apply H].
      * intros H t' Hin. apply H. now right.
Qed.

Lemma re_split1_unfold (toks : list text) (s : text) :
  re_split1 toks s
  = match match_token toks s with
    | Some t => Some ([], t, skipn (length t) s)
    | None =>
        match s with
        | [] => None
        | c :: s' =>
            match re_split1 toks s' with
            | Some (p, t, r) => Some (c :: p, t, r)
            | None => None
            end
        end
    end.
Proof. destruct s; reflexivity. Qed.

(** The split is at [p] when no token starts inside [p] and [t] is the
    token found after it. *)
Lemma re_split1_intro (toks : list text) (p t r : text) :
  (forall p1 c p2, p = p1 ++ c :: p2 -> match_token toks (c :: p2 ++ t ++ r) = None) ->
  match_token toks (t ++ r) = Some t ->
  re_split1 toks (p ++ t ++ r) = Some (p, t, r).
Proof.
  induction p as [|c p IH]; intros Hp Ht.
  - cbn [app]. rewrite re_split1_unfold, Ht.
    rewrite skipn_app, skipn_all, Nat.sub_diag. reflexivity.
  - cbn [app]. rewrite re_split1_unfold.
    rewrite (Hp [] c p eq_refl). rewrite IH; [reflexivity| |exact Ht].
    intros p1 c' p2 ->. apply (Hp (c :: p1) c' p2). reflexivity.
Qed.

Lemma re_split1_elim (toks : list text) (s p t r : text) :
  re_split1 toks s = Some (p, t, r) ->
  (forall p1 c p2, p = p1 ++ c :: p2 -> match_token toks (c :: p2 ++ t ++ r) = None)
  /\ In t toks.
Proof.
  intros H. split; [|apply (re_split1_sound toks s p t r H)].
  revert p H. induction s as [|c s IH]; intros p H; rewrite re_split1_unfold in H.
  - destruct (match_token toks []); [|discriminate].
    injection H as <- <- <-. intros [|? ?] ? ? ?; discriminate.
  - destruct (match_token toks (c :: s)) eqn:E.
    + injection H as <- <- <-. intros [|? ?] ? ? ?; discriminate.
    + destruct (re_split1 toks s) as [[[p' t'] r']|] eqn:E'; [|discriminate].
      injection H as <- <- <-.
      destruct (re_split1_sound toks s p' t' r' E') as [_ Hs].
      intros [|c1 p1] c2 p2 Hp; injection Hp as -> Hp.
      * subst p'. rewrite <- Hs. exact E.
      * apply (IH p' eq_refl p1 c2 p2 Hp).
Qed.

(** The tokens that open a region: none is longer than two characters, and
    none is a prefix of another. *)
Lemma start_tokens (t : text) :
  In t [$"--"; $"'"; DQ; $"/*"] ->
  (0 < length t <= 2)%nat
  /\ forall t' r, In t' [$"--"; $"'"; DQ; $"/*"] ->
                  Py.is_prefix t' (t ++ r) = true -> t' = t.
Proof.
  intros Hin. split.
  - destruct Hin as [<-|[<-|[<-|[<-|[]]]]]; cbn; lia.
  - intros t' r Hin' Hp. apply is_prefix_app in Hp.
    destruct Hin as [<-|[<-|[<-|[<-|[]]]]];
      destruct Hin' as [<-|[<-|[<-|[<-|[]]]]];
      try reflexivity; cbn in Hp; discriminate.
Qed.

Lemma match_token_start (t r : text) :
  In t [$"--"; $"'"; DQ; $"/*"] ->
  match_token [$"--"; $"'"; DQ; $"/*"] (t ++ r) = Some t.
Proof.
  intros Hin.
  destruct (match_token [$"--"; $"'"; DQ; $"/*"] (t ++ r)) as [t'|] eqn:E.
  - pose proof E as E'. apply match_token_sound in E'. destruct E' as [Hin' Heq].
    f_equal. apply (proj2 (start_tokens t Hin) t' r Hin').
    rewrite Heq. apply is_prefix_intro.
  - rewrite match_token_none_iff in E. specialize (E t Hin).
    pose proof (is_prefix_intro t r). congruence.
Qed.

(** In the normal state the place of the split does not depend on the text
    after the token. *)
Lemma re_split1_start_rest (s p t r r' : text) :
  re_split1 [$"--"; $"'"; DQ; $"/*"] s = Some (p, t, r) ->
  re_split1 [$"--"; $"'"; DQ; $"/*"] (p ++ t ++ r') = Some (p, t, r').
Proof.
  intros H. destruct (re_split1_elim _ _ _ _ _ H) as [Hp Hin].
  apply re_split1_intro; [|now apply match_token_start].
  intros p1 c p2 Hpe. specialize (Hp p1 c p2 Hpe).
  rewrite match_token_none_iff in *. intros t' Hin'. specialize (Hp t' Hin').
  destruct (start_tokens t Hin) as [Hlt _]. destruct (start_tokens t' Hin') as [Hlt' _].
  change (c :: p2 ++ t ++ r') with ((c :: p2) ++ t ++ r').
  change (c :: p2 ++ t ++ r) with ((c :: p2) ++ t ++ r) in Hp.
  rewrite app_assoc in *.
  rewrite is_prefix_short in * by (rewrite length_app; cbn [length]; lia).
  exact Hp.
Qed.

(** The tokens that close a region do not start with a blank. *)
Lemma end_tokens (k : text) (toks : list text) :
  _SPLITTER_REGEXES (Some k) = Some toks ->
  exists t, toks = [t] /\ forall s, Py.is_prefix t (" "%char :: s) = false.
Proof.
  unfold _SPLITTER_REGEXES.
  repeat match goal with
         | |- context [list_eq_dec ?d ?a ?b] => destruct (list_eq_dec d a b)
         end; try discriminate;
    intros [= <-]; eexists; (split; [reflexivity|]); intros s;
    match goal with
    | |- ?b = false => destruct b eqn:E; [apply is_prefix_app in E; discriminate | reflexivity]
    end.
Qed.

Lemma spaces_tail (n : nat) (p1 : text) (c : ascii) (p2 : text) :
  Py.spaces n = p1 ++ c :: p2 -> c = " "%char.
Proof.
  intros H. assert (Hin : In c (Py.spaces n)) by (rewrite H; apply in_elt).
  unfold Py.spaces in Hin. apply repeat_spec in Hin. exact Hin.
Qed.

Lemma re_split1_blanks_none (t : text) (n : nat) :
  (forall s, Py.is_prefix t (" "%char :: s) = false) ->
  (0 < length t)%nat ->
  re_split1 [t] (Py.spaces n) = None.
Proof.
  intros Ht Hlen. induction n as [|n IH].
  - cbn. destruct t; [cbn in Hlen; lia | reflexivity].
  - rewrite re_split1_unfold. change (Py.spaces (S n)) with (" "%char :: Py.spaces n).
    cbn [match_token]. rewrite Ht. now rewrite IH.
Qed.

(** Masking the output of the loop from the same state gives it back. *)
Lemma strip_loop_again (sql : text) (prev : option text) (stripped out : text) :
  strip_loop sql prev stripped = OK out ->
  exists tail,
    out = stripped ++ tail
    /\ forall stripped', strip_loop tail prev stripped' = OK (stripped' ++ tail).
Proof.
  funelim (strip_loop sql prev stripped); clear Heqcall.
  - intros [= <-]. exists []. split; [now rewrite app_nil_r|].
    intros stripped'. rewrite strip_loop_turn. now rewrite app_nil_r.
  - discriminate.
  - destruct (re_split1_sound toks (c :: s) _ _ _ Hsplit) as [Hin _].
    pose proof (_SPLITTER_REGEXES_nonempty _ _ _ Htoks Hin) as Hlen.
    destruct previous_split_token as [k|]; intros Hr.
    + apply H in Hr; [|exact []]. destruct Hr as (tail & -> & Ht).
      exists (Py.spaces (length prefix) ++ this_split_token ++ tail).
      split; [now rewrite <- !app_assoc|].
      intros stripped'. rewrite strip_loop_turn.
      destruct (end_tokens k toks Htoks) as (t & -> & Hnb).
      destruct Hin as [<-|[]].
      assert (Hsp : re_split1 [t] (Py.spaces (length prefix) ++ t ++ tail)
                    = Some (Py.spaces (length prefix), t, tail)).
      { apply re_split1_intro.
        - intros p1 c' p2 Hp. apply spaces_tail in Hp. subst c'.
          cbn [match_token]. now rewrite Hnb.
        - cbn [match_token]. now rewrite is_prefix_intro. }
      rewrite Htoks, Hsp.
      destruct (Py.spaces (length prefix) ++ t ++ tail) eqn:E.
      { apply (f_equal (@length ascii)) in E. rewrite !length_app in E.
        cbn [length] in E. lia. }
      rewrite <- E. rewrite length_spaces. rewrite Ht. now rewrite <- !app_assoc.
    + apply H0 in Hr. destruct Hr as (tail & -> & Ht).
      exists (prefix ++ this_split_token ++ tail).
      split; [now rewrite <- !app_assoc|].
      intros stripped'. rewrite strip_loop_turn.
      pose proof Htoks as Htoks'. cbn [_SPLITTER_REGEXES] in Htoks'.
      injection Htoks' as Htoks'.
      pose proof Hsplit as Hsplit'. rewrite <- Htoks' in Hsplit'.
      cbn [_SPLITTER_REGEXES].
      rewrite (re_split1_start_rest _ _ _ _ tail Hsplit').
      destruct (prefix ++ this_split_token ++ tail) eqn:E.
      { apply (f_equal (@length ascii)) in E. rewrite !length_app in E.
        cbn [length] in E. lia. }
      rewrite <- E. cbn [_SPLITTER_REGEXES]. rewrite Ht. now rewrite <- !app_assoc.
  - destruct previous_split_token as [k|]; intros [= <-]; eexists;
      (split; [reflexivity|]); intros stripped'; rewrite strip_loop_turn.
    + destruct (end_tokens k toks Htoks) as (t & -> & Hnb).
      change (Py.spaces (length (c :: s))) with (" "%char :: Py.spaces (length s)).
      rewrite Htoks.
      change (" "%char :: Py.spaces (length s)) with (Py.spaces (S (length s))).
      rewrite re_split1_blanks_none; [|exact Hnb|].
      * now rewrite length_spaces.
      * destruct t; [|cbn; lia]. specialize (Hnb []). discriminate.
    + rewrite Htoks.
      match goal with H : re_split1 _ _ = None |- _ => now rewrite H end.
Qed.

(** Masking is idempotent: the masked text of a masked text is that text,
    so masking again the text a renderer searches changes nothing. *)
Theorem masking_idempotent (s out : text) :
  _strip_comments_and_string_literals s = OK out ->
  _strip_comments_and_string_literals out = OK out.
Proof.
  intros H. destruct (strip_loop_again _ _ _ _ H) as (tail & -> & Ht).
  apply (Ht []).
Qed.

(** An instance: a literal, a block comment and a line comment. *)
Lemma masking_idempotent_witness :
  _strip_comments_and_string_literals $"select 'a' /* b */ from t -- '"
  = OK $"select ' ' /*   */ from t --  "
  /\ _strip_comments_and_string_literals $"select ' ' /*   */ from t --  "
     = OK $"select ' ' /*   */ from t --  ".
Proof.
  split; [reflexivity|].
  apply (masking_idempotent $"select 'a' /* b */ from t -- '"). reflexivity.
Defined.

(** ** The views of the matchers can be patched *)








(** Patching, without a selector, a view that has a patch alias (the
    views of [subquery], [cte], [create_table_as] and [table]) with no
    columns, or an empty list of them, fails with
    [ColumnsNeededForPatchError] whatever the rows, before any value is
    serialized. *)
Theorem aliased_patch_needs_columns (cfg : config) (self : Renderer) (v : View)
        (rest : list View) (rows : option (list row)) (cols : option (list text)) :
  views self = v :: rest ->
  patch v <> None ->
  truthy (patch_alias (patch_params v)) = true ->
  truthy_list cols = false ->
  is_exc ColumnsNeededForPatchError (Renderer_patch cfg self None rows cols None).
Proof.
  intros Hv Hp Ha Hc. unfold Renderer_patch. cbn [bind]. rewrite Hv. cbn [patch_loop].
  unfold patch_step, check_is_patchable.
  destruct (patch v) as [p|]; [|congruence]. rewrite Ha, Hc. cbn [negb andb].
  unfold is_exc, throw. cbn [bind]. eauto.
Qed.

(** An instance: the two CTEs, patched with an unserializable value and no
    columns. *)
Lemma aliased_patch_needs_columns_witness :
  is_exc ColumnsNeededForPatchError
         (Renderer_patch default_config
            (mkRenderer (rendering_sql two_ctes_renderer) two_ctes_views)
            None (Some [RowSeq [VOther $"x" $"object"]]) None None).
Proof.
  apply (aliased_patch_needs_columns default_config
           (mkRenderer (rendering_sql two_ctes_renderer) two_ctes_views)
           (mkView (Slice 12 27) (Some (Slice 12 27))
                   (PatchParams_init (Some $"pgmock") true None))
           [mkView (Slice 37 52) (Some (Slice 37 52))
                   (PatchParams_init (Some $"pgmock") true None)]);
    [reflexivity | discriminate | reflexivity | reflexivity].
Defined.
